(** * Speakap SDK for Node.js: signed requests and the API wrapper

    A shallow embedding of [node/speakap.js]: the signed-request helpers
    ([percentEncode], [signedRequest], [validateSignature]) and the [API]
    wrapper with its six prototype members, followed by the properties of the
    written specification that concern them.

    JavaScript strings are sequences of UTF-16 code units; they are modelled
    as lists of code units.  Exceptions are modelled by a completion type.
    The built-ins the file relies on ([encodeURIComponent],
    [String.prototype.replace], [Array.prototype.sort], [JSON.parse], the
    lodash helpers) are modelled after their specifications; the HMAC, the
    date parser, [JSON.stringify] and the test by which [scheme.request]
    throws on its options are taken as parameters. *)

From Stdlib Require Import List NArith ZArith Bool Ascii String DecimalString.
From Stdlib Require Import Lia Permutation Sorted.
Import ListNotations.

Set Implicit Arguments.
Set Warnings "-register-all".

(* ================================================================== *)
(** * JavaScript values and built-ins *)
(* ================================================================== *)

Module JS.

(** A string is the list of its UTF-16 code units. *)
Definition jsstring := list N.

(** The code units of an ASCII literal. *)
Definition lit (s : string) : jsstring :=
  map N_of_ascii (list_ascii_of_string s).

(** The same, an apostrophe standing for a double quote. *)
Definition litq (s : string) : jsstring :=
  map (fun c => if N.eqb c 39 then 34%N else c) (lit s).

Fixpoint jsstring_eqb (a b : jsstring) : bool :=
  match a, b with
  | [], [] => true
  | x :: a', y :: b' => N.eqb x y && jsstring_eqb a' b'
  | _, _ => false
  end.

(** Thrown values: the native error objects, with their message. *)
Inductive exn :=
| Error (message : jsstring)
| TypeError (message : jsstring)
| URIError (message : jsstring)
| RangeError (message : jsstring)
| SyntaxError (message : jsstring).

(** The completion of an evaluation: a value, or a thrown exception. *)
Inductive completion (A : Type) :=
| Normal (a : A)
| Throw (e : exn).
Arguments Normal {A} a.
Arguments Throw {A} e.

Definition cbind {A B} (c : completion A) (k : A -> completion B) : completion B :=
  match c with
  | Normal a => k a
  | Throw e => Throw e
  end.

Notation "x <- c ;; k" := (cbind c (fun x => k))
  (at level 61, c at next level, right associativity).

(** [xs.map(f)] for a callback that can throw: the first exception, in
    iteration order, aborts the loop. *)
Fixpoint mapM {A B} (f : A -> completion B) (xs : list A) : completion (list B) :=
  match xs with
  | [] => Normal []
  | x :: xs' => y <- f x ;; ys <- mapM f xs' ;; Normal (y :: ys)
  end.

(** [parts.join(sep)] *)
Fixpoint join (sep : jsstring) (parts : list jsstring) : jsstring :=
  match parts with
  | [] => []
  | [p] => p
  | p :: rest => p ++ sep ++ join sep rest
  end.

(** A string-or-undefined value, and its conversion by [ToString]. *)
Definition ToString (v : option jsstring) : jsstring :=
  match v with
  | Some s => s
  | None => lit "undefined"
  end.

(** Truthiness of a string-or-undefined value: [undefined] and the empty
    string are falsy. *)
Definition truthy (v : option jsstring) : bool :=
  match v with
  | Some (_ :: _) => true
  | _ => false
  end.

(** [a || b] on string-or-undefined values. *)
Definition or_else (a b : option jsstring) : option jsstring :=
  if truthy a then a else b.

(** ** UTF-8 and [encodeURIComponent] *)

Definition in_range (lo hi c : N) : bool := N.leb lo c && N.leb c hi.

Definition is_high_surrogate (c : N) : bool := in_range 0xD800 0xDBFF c.
Definition is_low_surrogate (c : N) : bool := in_range 0xDC00 0xDFFF c.

(** The UTF-8 octets of a code point. *)
Definition utf8_encode (cp : N) : list N :=
  if N.ltb cp 0x80 then [cp]
  else if N.ltb cp 0x800 then
    [N.lor 0xC0 (N.shiftr cp 6); N.lor 0x80 (N.land cp 0x3F)]
  else if N.ltb cp 0x10000 then
    [N.lor 0xE0 (N.shiftr cp 12);
     N.lor 0x80 (N.land (N.shiftr cp 6) 0x3F);
     N.lor 0x80 (N.land cp 0x3F)]
  else
    [N.lor 0xF0 (N.shiftr cp 18);
     N.lor 0x80 (N.land (N.shiftr cp 12) 0x3F);
     N.lor 0x80 (N.land (N.shiftr cp 6) 0x3F);
     N.lor 0x80 (N.land cp 0x3F)].

(** The code point of a surrogate pair. *)
Definition pair_code_point (hi lo : N) : N :=
  ((hi - 0xD800) * 0x400 + (lo - 0xDC00) + 0x10000)%N.

(** The set that [encodeURIComponent] leaves alone: letters, digits and the
    marks [- _ . ! ~ * ' ( )]. *)
Definition uriUnreserved (c : N) : bool :=
  in_range 65 90 c || in_range 97 122 c || in_range 48 57 c
  || existsb (N.eqb c) (lit "-_.!~*'()").

Definition hex_digit (n : N) : N :=
  if N.ltb n 10 then (48 + n)%N else (55 + n)%N.

(** ["%XX"], upper-case hexadecimal. *)
Definition percent_octet (b : N) : jsstring :=
  [37%N; hex_digit (N.div b 16); hex_digit (N.modulo b 16)].

Definition percent_octets (cp : N) : jsstring :=
  flat_map percent_octet (utf8_encode cp).

Definition malformed : exn := URIError (lit "URI malformed").

(** [encodeURIComponent(s)]: unreserved code units are copied, every other
    code point is replaced by the escapes of its UTF-8 octets, and an
    unpaired surrogate throws a [URIError]. *)
Fixpoint encodeURIComponent (s : jsstring) : completion jsstring :=
  match s with
  | [] => Normal []
  | c :: rest =>
      if uriUnreserved c then
        r <- encodeURIComponent rest ;; Normal (c :: r)
      else if is_low_surrogate c then Throw malformed
      else if is_high_surrogate c then
        match rest with
        | d :: rest' =>
            if is_low_surrogate d then
              r <- encodeURIComponent rest' ;;
              Normal (percent_octets (pair_code_point c d) ++ r)
            else Throw malformed
        | [] => Throw malformed
        end
      else
        r <- encodeURIComponent rest ;; Normal (percent_octets c ++ r)
  end.

(** ** [String.prototype.replace] with a string pattern *)

Fixpoint starts_with (pat s : jsstring) : bool :=
  match pat, s with
  | [], _ => true
  | p :: pat', c :: s' => N.eqb p c && starts_with pat' s'
  | _ :: _, [] => false
  end.

(** [s.replace(pat, rep)] where [pat] is a string: only the first occurrence
    of [pat] is replaced.  ([rep] holds no [$] pattern in this program.) *)
Fixpoint replace (pat rep s : jsstring) : jsstring :=
  if starts_with pat s then rep ++ skipn (List.length pat) s
  else match s with
       | [] => []
       | c :: s' => c :: replace pat rep s'
       end.

(** Replacement of every occurrence of a one-unit pattern, as a global
    replace would do; used to state what the specification asks for. *)
Definition replace_all (c : N) (rep s : jsstring) : jsstring :=
  flat_map (fun x => if N.eqb x c then rep else [x]) s.

(** ** [Array.prototype.sort] with the default comparison *)

(** [a < b] on strings: lexicographic on code units, a proper prefix first. *)
Fixpoint str_ltb (a b : jsstring) : bool :=
  match a, b with
  | _, [] => false
  | [], _ :: _ => true
  | x :: a', y :: b' => N.ltb x y || (N.eqb x y && str_ltb a' b')
  end.

Definition str_leb (a b : jsstring) : bool := negb (str_ltb b a).

Fixpoint insert (k : jsstring) (sorted : list jsstring) : list jsstring :=
  match sorted with
  | [] => [k]
  | h :: t => if str_leb k h then k :: h :: t else h :: insert k t
  end.

(** [keys.sort()]: the elements in ascending code-unit order.  The order is
    total on strings, so the result does not depend on the engine's sorting
    algorithm; insertion sort stands for it. *)
Fixpoint sort (keys : list jsstring) : list jsstring :=
  match keys with
  | [] => []
  | k :: rest => insert k (sort rest)
  end.

(** ** Values passed to callbacks *)

(** The values that reach a callback: what [JSON.parse] builds, [undefined],
    and host objects such as the [Error] of a failed connection.  A number is
    kept as the decimal [m * 10^e] it was written as; the engine rounds it to
    a double, which nothing below depends on. *)
Inductive jsval :=
| Undefined
| Null
| Bool (b : bool)
| Num (m e : Z)
| Str (s : jsstring)
| Arr (elems : list jsval)
| Obj (props : list (jsstring * jsval))
| Host (id : nat).

(** An integer as a number value. *)
Definition Int (z : Z) : jsval := Num z 0.

End JS.

Import JS.

(* ================================================================== *)
(** * The lodash helpers on plain objects *)
(* ================================================================== *)

Module Lodash.

(** A plain object: its own enumerable properties in insertion order.  The
    keys of an object are pairwise distinct ([well_formed]).  An engine lists
    array-index keys before the others; every function below that lists keys
    sorts them next, and the properties proved of them hold for every
    enumeration order. *)
Definition object (V : Type) := list (jsstring * V).

Definition well_formed {V} (o : object V) : Prop := NoDup (map fst o).

(** [o[key]]: [None] stands for [undefined]. *)
Fixpoint get {V} (o : object V) (key : jsstring) : option V :=
  match o with
  | [] => None
  | (k, v) :: o' => if jsstring_eqb k key then Some v else get o' key
  end.

(** [o[key] = v]: an existing property keeps its place. *)
Fixpoint set {V} (o : object V) (key : jsstring) (v : V) : object V :=
  match o with
  | [] => [(key, v)]
  | (k, w) :: o' =>
      if jsstring_eqb k key then (k, v) :: o' else (k, w) :: set o' key v
  end.

(** [_.keys(o)] *)
Definition keys {V} (o : object V) : list jsstring := map fst o.

(** [_.without(xs, x)] *)
Definition without (xs : list jsstring) (x : jsstring) : list jsstring :=
  filter (fun k => negb (jsstring_eqb k x)) xs.

(** [_.extend(dst, src)]: the properties of [src] are assigned to [dst] in
    order. *)
Definition extend {V} (dst src : object V) : object V :=
  fold_left (fun o kv => set o (fst kv) (snd kv)) src dst.

End Lodash.

(* ================================================================== *)
(** * [JSON.parse] *)
(* ================================================================== *)

Module JSON.

Inductive token :=
| T_lbrace | T_rbrace | T_lbracket | T_rbracket | T_colon | T_comma
| T_string (s : jsstring)
| T_scalar (v : jsval).

(** Where the scanner stands inside a number. *)
Inductive numphase :=
| N_minus   (* after [-]: a digit must follow *)
| N_zero    (* integer part [0] *)
| N_int     (* integer part with a non-zero first digit *)
| N_dot     (* after [.]: a digit must follow *)
| N_frac
| N_e       (* after [e] or [E]: a sign or a digit must follow *)
| N_esign   (* after the sign of the exponent: a digit must follow *)
| N_exp.

Record numacc := {
  negative : bool;
  mantissa : Z;
  fraction_digits : Z;
  exponent_negative : bool;
  exponent : Z
}.

Definition num0 (neg : bool) (d : Z) : numacc :=
  {| negative := neg; mantissa := d; fraction_digits := 0;
     exponent_negative := false; exponent := 0 |}.

Inductive lexstate :=
| L_start
| L_literal (expected : jsstring) (v : jsval)
| L_string (acc_rev : jsstring)
| L_escape (acc_rev : jsstring)
| L_unicode (acc_rev : jsstring) (missing : nat) (value : N)
| L_number (ph : numphase) (a : numacc).

Definition is_ws (c : N) : bool := existsb (N.eqb c) [9; 10; 13; 32]%N.
Definition is_digit (c : N) : bool := in_range 48 57 c.
Definition digit (c : N) : Z := Z.of_N (c - 48).
Definition is_char (a : ascii) (c : N) : bool := N.eqb c (N_of_ascii a).
Definition is_quote (c : N) : bool := N.eqb c 34.
Definition is_backslash (c : N) : bool := N.eqb c 92.

Definition hex_value (c : N) : option N :=
  if in_range 48 57 c then Some (c - 48)%N
  else if in_range 65 70 c then Some (c - 55)%N
  else if in_range 97 102 c then Some (c - 87)%N
  else None.

(** A code unit read between two tokens. *)
Definition start (c : N) : option (lexstate * list token) :=
  if is_ws c then Some (L_start, [])
  else if is_char "{" c then Some (L_start, [T_lbrace])
  else if is_char "}" c then Some (L_start, [T_rbrace])
  else if is_char "[" c then Some (L_start, [T_lbracket])
  else if is_char "]" c then Some (L_start, [T_rbracket])
  else if is_char ":" c then Some (L_start, [T_colon])
  else if is_char "," c then Some (L_start, [T_comma])
  else if is_quote c then Some (L_string [], [])
  else if is_char "n" c then Some (L_literal (lit "ull") Null, [])
  else if is_char "t" c then Some (L_literal (lit "rue") (Bool true), [])
  else if is_char "f" c then Some (L_literal (lit "alse") (Bool false), [])
  else if is_char "-" c then Some (L_number N_minus (num0 true 0), [])
  else if is_char "0" c then Some (L_number N_zero (num0 false 0), [])
  else if is_digit c then Some (L_number N_int (num0 false (digit c)), [])
  else None.

Definition add_digit (a : numacc) (d : Z) (frac : bool) : numacc :=
  {| negative := negative a;
     mantissa := mantissa a * 10 + d;
     fraction_digits := if frac then fraction_digits a + 1 else fraction_digits a;
     exponent_negative := exponent_negative a;
     exponent := exponent a |}.

Definition add_exp_digit (a : numacc) (d : Z) : numacc :=
  {| negative := negative a; mantissa := mantissa a;
     fraction_digits := fraction_digits a;
     exponent_negative := exponent_negative a;
     exponent := exponent a * 10 + d |}.

Definition set_exp_sign (a : numacc) (neg : bool) : numacc :=
  {| negative := negative a; mantissa := mantissa a;
     fraction_digits := fraction_digits a;
     exponent_negative := neg;
     exponent := exponent a |}.

(** The next phase when [c] continues the number, [None] when it does not. *)
Definition num_step (ph : numphase) (a : numacc) (c : N) : option (numphase * numacc) :=
  let is_e := is_char "e" c || is_char "E" c in
  match ph with
  | N_minus =>
      if is_char "0" c then Some (N_zero, a)
      else if is_digit c then Some (N_int, add_digit a (digit c) false)
      else None
  | N_zero =>
      if is_char "." c then Some (N_dot, a)
      else if is_e then Some (N_e, a)
      else None
  | N_int =>
      if is_digit c then Some (N_int, add_digit a (digit c) false)
      else if is_char "." c then Some (N_dot, a)
      else if is_e then Some (N_e, a)
      else None
  | N_dot =>
      if is_digit c then Some (N_frac, add_digit a (digit c) true) else None
  | N_frac =>
      if is_digit c then Some (N_frac, add_digit a (digit c) true)
      else if is_e then Some (N_e, a)
      else None
  | N_e =>
      if is_char "+" c then Some (N_esign, a)
      else if is_char "-" c then Some (N_esign, set_exp_sign a true)
      else if is_digit c then Some (N_exp, add_exp_digit a (digit c))
      else None
  | N_esign | N_exp =>
      if is_digit c then Some (N_exp, add_exp_digit a (digit c)) else None
  end.

(** The phases in which the number read so far is complete. *)
Definition complete (ph : numphase) : bool :=
  match ph with
  | N_zero | N_int | N_frac | N_exp => true
  | _ => false
  end.

Definition number_value (a : numacc) : jsval :=
  Num (if negative a then - mantissa a else mantissa a)
      ((if exponent_negative a then - exponent a else exponent a)
       - fraction_digits a).

(** One code unit of the text: the new state and the tokens completed. *)
Definition step (st : lexstate) (c : N) : option (lexstate * list token) :=
  match st with
  | L_start => start c
  | L_literal [] _ => None
  | L_literal (x :: rest) v =>
      if N.eqb c x then
        match rest with
        | [] => Some (L_start, [T_scalar v])
        | _ => Some (L_literal rest v, [])
        end
      else None
  | L_string acc =>
      if is_quote c then Some (L_start, [T_string (rev acc)])
      else if is_backslash c then Some (L_escape acc, [])
      else if N.ltb c 32 then None
      else Some (L_string (c :: acc), [])
  | L_escape acc =>
      if is_quote c || is_backslash c || is_char "/" c
      then Some (L_string (c :: acc), [])
      else if is_char "b" c then Some (L_string (8%N :: acc), [])
      else if is_char "f" c then Some (L_string (12%N :: acc), [])
      else if is_char "n" c then Some (L_string (10%N :: acc), [])
      else if is_char "r" c then Some (L_string (13%N :: acc), [])
      else if is_char "t" c then Some (L_string (9%N :: acc), [])
      else if is_char "u" c then Some (L_unicode acc 4 0, [])
      else None
  | L_unicode acc missing value =>
      match hex_value c, missing with
      | Some h, S O => Some (L_string ((value * 16 + h)%N :: acc), [])
      | Some h, S n => Some (L_unicode acc n (value * 16 + h), [])
      | _, _ => None
      end
  | L_number ph a =>
      match num_step ph a c with
      | Some (ph', a') => Some (L_number ph' a', [])
      | None =>
          if complete ph then
            match start c with
            | Some (st', out) => Some (st', T_scalar (number_value a) :: out)
            | None => None
            end
          else None
      end
  end.

(** The end of the text. *)
Definition finish (st : lexstate) : option (list token) :=
  match st with
  | L_start => Some []
  | L_number ph a => if complete ph then Some [T_scalar (number_value a)] else None
  | _ => None
  end.

Fixpoint lex (st : lexstate) (text : jsstring) : option (list token) :=
  match text with
  | [] => finish st
  | c :: text' =>
      match step st c with
      | Some (st', out) => option_map (app out) (lex st' text')
      | None => None
      end
  end.

(** The containers that are open, innermost first. *)
Inductive frame :=
| F_array (elems_rev : list jsval)
| F_object (props : list (jsstring * jsval)) (key : jsstring).

Inductive mode :=
| ExpectValue (may_close : bool)   (* [may_close]: just after "[" *)
| ExpectKey (may_close : bool)     (* [may_close]: just after "{" *)
| ExpectColon
| AfterValue
| Done (v : jsval).

(** A value is complete: it is the result, or it goes into the innermost
    container.  A repeated key overwrites the earlier value. *)
Definition push_value (v : jsval) (stack : list frame) : mode * list frame :=
  match stack with
  | [] => (Done v, [])
  | F_array elems :: rest => (AfterValue, F_array (v :: elems) :: rest)
  | F_object props key :: rest =>
      (AfterValue, F_object (Lodash.set props key v) key :: rest)
  end.

Definition parse_step (st : mode * list frame) (t : token) : option (mode * list frame) :=
  let (m, stack) := st in
  match m, t with
  | ExpectValue _, T_scalar v => Some (push_value v stack)
  | ExpectValue _, T_string s => Some (push_value (Str s) stack)
  | ExpectValue _, T_lbracket => Some (ExpectValue true, F_array [] :: stack)
  | ExpectValue _, T_lbrace => Some (ExpectKey true, F_object [] [] :: stack)
  | ExpectValue true, T_rbracket =>
      match stack with
      | F_array _ :: rest => Some (push_value (Arr []) rest)
      | _ => None
      end
  | ExpectKey _, T_string k =>
      match stack with
      | F_object props _ :: rest => Some (ExpectColon, F_object props k :: rest)
      | _ => None
      end
  | ExpectKey true, T_rbrace =>
      match stack with
      | F_object _ _ :: rest => Some (push_value (Obj []) rest)
      | _ => None
      end
  | ExpectColon, T_colon => Some (ExpectValue false, stack)
  | AfterValue, T_comma =>
      match stack with
      | F_array _ :: _ => Some (ExpectValue false, stack)
      | F_object _ _ :: _ => Some (ExpectKey false, stack)
      | [] => None
      end
  | AfterValue, T_rbracket =>
      match stack with
      | F_array elems :: rest => Some (push_value (Arr (rev elems)) rest)
      | _ => None
      end
  | AfterValue, T_rbrace =>
      match stack with
      | F_object props _ :: rest => Some (push_value (Obj props) rest)
      | _ => None
      end
  | _, _ => None
  end.

Fixpoint run (st : mode * list frame) (toks : list token) : option (mode * list frame) :=
  match toks with
  | [] => Some st
  | t :: toks' =>
      match parse_step st t with
      | Some st' => run st' toks'
      | None => None
      end
  end.

Definition unexpected : exn := SyntaxError (lit "Unexpected token").

(** [JSON.parse(text)]: the value of a JSON text, or a [SyntaxError]. *)
Definition parse (text : jsstring) : completion jsval :=
  match lex L_start text with
  | None => Throw unexpected
  | Some toks =>
      match run (ExpectValue false, []) toks with
      | Some (Done v, _) => Normal v
      | _ => Throw unexpected
      end
  end.

End JSON.

(* ================================================================== *)
(** * Signed requests *)
(* ================================================================== *)

(** A parameter set: the POST parameters of a signed request, strings. *)
Definition ParameterSet := Lodash.object jsstring.

Definition SIGNATURE_WINDOW_SIZE : Z := 60 * 1000.

Definition percentEncode (str : jsstring) : completion jsstring :=
  e <- encodeURIComponent str ;;
  Normal (replace (lit "*") (lit "%2A")
         (replace (lit ")") (lit "%29")
         (replace (lit "(") (lit "%28")
         (replace (lit "'") (lit "%27")
         (replace (lit "!") (lit "%21") e))))).

(** The callback of both [_.map] calls:
    [percentEncode(key) + "=" + percentEncode(params[key])]. *)
Definition encodePair (params : ParameterSet) (key : jsstring) : completion jsstring :=
  k <- percentEncode key ;;
  v <- percentEncode (ToString (Lodash.get params key)) ;;
  Normal (k ++ lit "=" ++ v).

Definition signedRequest (params : ParameterSet) : completion jsstring :=
  let keys := Lodash.without (Lodash.keys params) (lit "signature") in
  let keys := sort keys in
  let keys := keys ++ [lit "signature"] in
  parts <- mapM (encodePair params) keys ;;
  Normal (join (lit "&") parts).

(** The local [queryString] of [validateSignature]: the string that is
    signed. *)
Definition queryString (params : ParameterSet) : completion jsstring :=
  let keys := Lodash.keys params in
  let keys := sort keys in
  parts <- mapM (encodePair params) (Lodash.without keys (lit "signature")) ;;
  Normal (join (lit "&") parts).

(** A time value, as [Date.prototype.getTime] returns it: an integral number
    of milliseconds, or [NaN] for an invalid date.  Time values stay far
    below 2^53, so adding the window is exact. *)
Inductive timevalue :=
| NaN
| Time (ms : Z).

(** [t + n] *)
Definition time_add (t : timevalue) (n : Z) : timevalue :=
  match t with
  | NaN => NaN
  | Time ms => Time (ms + n)
  end.

(** [now > t]: every comparison with [NaN] is false. *)
Definition time_gt (now : Z) (t : timevalue) : bool :=
  match t with
  | NaN => false
  | Time ms => Z.ltb ms now
  end.

(** [a !== b] between a string and a string-or-undefined value. *)
Definition strict_neq (a : jsstring) (b : option jsstring) : bool :=
  match b with
  | Some s => negb (jsstring_eqb a s)
  | None => true
  end.

Section Verification.

(** [crypto.createHmac("sha256", key).update(data).digest("base64")] *)
Variable hmac_sha256_base64 : jsstring -> jsstring -> jsstring.

(** [new Date(s).getTime()] for a string [s]. *)
Variable Date_parse : jsstring -> timevalue.

(** [new Date(v).getTime()]: [undefined] gives an invalid date. *)
Definition getTime (v : option jsstring) : timevalue :=
  match v with
  | None => NaN
  | Some s => Date_parse s
  end.

(** [validateSignature(params, appSecret)], run when [Date.now()] reads
    [now]. *)
Definition validateSignature (now : Z) (params : ParameterSet)
    (appSecret : jsstring) : completion unit :=
  queryString <- queryString params ;;
  let computedHash := hmac_sha256_base64 appSecret queryString in
  if strict_neq computedHash (Lodash.get params (lit "signature")) then
    Throw (Error (lit "Invalid signature: " ++ queryString))
  else
    let issuedAt := getTime (Lodash.get params (lit "issuedAt")) in
    if time_gt now (time_add issuedAt SIGNATURE_WINDOW_SIZE) then
      Throw (Error (lit "Expired signature"))
    else Normal tt.

End Verification.

(* ================================================================== *)
(** * The API wrapper *)
(* ================================================================== *)

(** ** Arguments whose type the code inspects *)

(** The values passed for [options] and [callback].  An object is given by
    its string-valued properties ([accept], [accessToken], [contentType]); a
    function by an identity. *)
Inductive arg :=
| ArgUndefined
| ArgNull
| ArgBoolean (b : bool)
| ArgNumber (n : Z)
| ArgString (s : jsstring)
| ArgFunction (f : nat)
| ArgObject (o : Lodash.object jsstring).

(** [_.isObject(v)]: objects and functions. *)
Definition isObject (v : arg) : bool :=
  match v with
  | ArgFunction _ | ArgObject _ => true
  | _ => false
  end.

(** [_.isFunction(v)] *)
Definition isFunction (v : arg) : bool :=
  match v with
  | ArgFunction _ => true
  | _ => false
  end.

Definition arg_truthy (v : arg) : bool :=
  match v with
  | ArgUndefined | ArgNull => false
  | ArgBoolean b => b
  | ArgNumber n => negb (Z.eqb n 0)
  | ArgString s => truthy (Some s)
  | ArgFunction _ | ArgObject _ => true
  end.

Definition properties (v : arg) : Lodash.object jsstring :=
  match v with
  | ArgObject o => o
  | _ => []
  end.

(** [a || d] where [d] is a string. *)
Definition or_default (a : option jsstring) (d : jsstring) : jsstring :=
  if truthy a then ToString a else d.

(** ** The network, as far as the wrapper drives it *)

Inductive node_module := http | https.

(** [require(name)] for the two modules the constructor can ask for. *)
Definition require (name : jsstring) : completion node_module :=
  if jsstring_eqb name (lit "http") then Normal http
  else if jsstring_eqb name (lit "https") then Normal https
  else Throw (Error (lit "Cannot find module '" ++ name ++ lit "'")).

(** A request created by [scheme.request(options, handler)].  The response
    handler and the ["error"] listener are closures over [callback]; they are
    kept as the [callback] they capture and run by [response_end] and
    [request_error] below. *)
Record ClientRequest := {
  req_module : node_module;
  req_headers : Lodash.object jsval;
  req_hostname : option jsstring;
  req_method : jsstring;
  req_path : jsstring;
  req_response_callback : arg;
  req_error_callback : option arg;
  req_written : list (list N);
  req_ended : bool
}.

(** The requests created so far, oldest first.  A request goes out when it is
    ended. *)
Definition World := list ClientRequest.

(** Computations that create and drive requests and can throw. *)
Definition M (A : Type) := World -> completion A * World.

Definition mret {A} (a : A) : M A := fun w => (Normal a, w).
Definition throw {A} (e : exn) : M A := fun w => (Throw e, w).
Definition lift {A} (c : completion A) : M A := fun w => (c, w).
Definition mbind {A B} (c : M A) (k : A -> M B) : M B :=
  fun w =>
    match c w with
    | (Normal a, w') => k a w'
    | (Throw e, w') => (Throw e, w')
    end.

Notation "x <-- c ;; k" := (mbind c (fun x => k))
  (at level 61, c at next level, right associativity).

Fixpoint update {A} (i : nat) (f : A -> A) (l : list A) : list A :=
  match l, i with
  | [], _ => []
  | x :: l', O => f x :: l'
  | x :: l', S i' => x :: update i' f l'
  end.

(** What [scheme.request] makes of its options before it creates anything:
    [Some e] when it throws [e], [None] when it goes on.  Node validates the
    options in the call itself: [http.request] throws on a path with a space,
    on a method that is not a token, on a header value with a character it
    rejects.  What is rejected is a matter of the module and of its version,
    so the test is a parameter of all that calls [scheme.request]. *)
Definition transport_check :=
  node_module -> Lodash.object jsval -> option jsstring -> jsstring -> jsstring ->
  option exn.

Section Transport.

Variable request_throws : transport_check.

(** [scheme.request({headers, hostname, method, path}, handler)]: throws
    and creates nothing, or creates a request after those there are. *)
Definition scheme_request (m : node_module) (headers : Lodash.object jsval)
    (hostname : option jsstring) (method path : jsstring) (callback : arg) : M nat :=
  fun w =>
    match request_throws m headers hostname method path with
    | Some e => (Throw e, w)
    | None =>
        (Normal (List.length w),
         w ++ [{| req_module := m; req_headers := headers; req_hostname := hostname;
                  req_method := method; req_path := path;
                  req_response_callback := callback; req_error_callback := None;
                  req_written := []; req_ended := false |}])
    end.

End Transport.

(** [req.on("error", listener)] *)
Definition req_on_error (req : nat) (callback : arg) : M unit :=
  fun w =>
    (Normal tt,
     update req (fun r =>
       {| req_module := req_module r; req_headers := req_headers r;
          req_hostname := req_hostname r; req_method := req_method r;
          req_path := req_path r;
          req_response_callback := req_response_callback r;
          req_error_callback := Some callback;
          req_written := req_written r; req_ended := req_ended r |}) w).

(** [req.write(buffer)] *)
Definition req_write (req : nat) (buffer : list N) : M unit :=
  fun w =>
    (Normal tt,
     update req (fun r =>
       {| req_module := req_module r; req_headers := req_headers r;
          req_hostname := req_hostname r; req_method := req_method r;
          req_path := req_path r;
          req_response_callback := req_response_callback r;
          req_error_callback := req_error_callback r;
          req_written := req_written r ++ [buffer]; req_ended := req_ended r |}) w).

(** [req.end()] *)
Definition req_end (req : nat) : M unit :=
  fun w =>
    (Normal tt,
     update req (fun r =>
       {| req_module := req_module r; req_headers := req_headers r;
          req_hostname := req_hostname r; req_method := req_method r;
          req_path := req_path r;
          req_response_callback := req_response_callback r;
          req_error_callback := req_error_callback r;
          req_written := req_written r; req_ended := true |}) w).

(** [new Buffer(s)]: the UTF-8 octets of [s], an unpaired surrogate being
    replaced by U+FFFD. *)
Fixpoint Buffer_from (s : jsstring) : list N :=
  match s with
  | [] => []
  | c :: rest =>
      if is_high_surrogate c then
        match rest with
        | d :: rest' =>
            if is_low_surrogate d
            then utf8_encode (pair_code_point c d) ++ Buffer_from rest'
            else utf8_encode 0xFFFD ++ Buffer_from rest
        | [] => utf8_encode 0xFFFD
        end
      else if is_low_surrogate c then utf8_encode 0xFFFD ++ Buffer_from rest
      else utf8_encode c ++ Buffer_from rest
  end.

(** ** The constructor *)

(** The configuration object, and the instance the constructor fills in. *)
Definition Config := Lodash.object jsstring.

Record Client := {
  scheme : node_module;
  hostname : option jsstring;
  appId : option jsstring;
  appSecret : option jsstring;
  apiVersion : jsstring;
  accessToken : option jsstring
}.

(** [new API(config)].  The constructor touches no request; it is written in
    [M] so that this can be stated. *)
Definition API (config : Config) : M Client :=
  let config_scheme := Lodash.get config (lit "scheme") in
  if strict_neq (lit "http") config_scheme && strict_neq (lit "https") config_scheme
  then throw (Error (lit "Speakap scheme should be http or https"))
  else
    scheme <-- lift (require (ToString config_scheme)) ;;
    let appId := Lodash.get config (lit "appId") in
    let appSecret := Lodash.get config (lit "appSecret") in
    mret {| scheme := scheme;
            hostname := Lodash.get config (lit "hostname");
            appId := appId;
            appSecret := appSecret;
            apiVersion := or_default (Lodash.get config (lit "apiVersion")) (lit "1.1");
            accessToken :=
              if truthy appId && truthy appSecret
              then Some (ToString appId ++ lit "_" ++ ToString appSecret)
              else None |}.

(** ** What the handlers do when the transport reports back *)

(** The effect of a handler: it calls a function, calls nothing, or throws. *)
Inductive reaction :=
| NoCall
| Call (f : nat) (args : list jsval)
| HandlerThrows (e : exn).

(** [if (callback) { callback(args) }] *)
Definition invoke_callback (callback : arg) (args : list jsval) : reaction :=
  if arg_truthy callback then
    match callback with
    | ArgFunction f => Call f args
    | _ => HandlerThrows (TypeError (lit "callback is not a function"))
    end
  else NoCall.

Definition unexpected_reply (responseBody : jsstring) : jsval :=
  Obj [(lit "code", Int (-1001));
       (lit "message", Str (lit "Unexpected Reply"));
       (lit "description", Str responseBody)].

Definition request_failed (error : jsval) : jsval :=
  Obj [(lit "code", Int (-1000));
       (lit "message", Str (lit "Request Failed"));
       (lit "requestError", error)].

(** The [try ... catch] of the ["end"] listener: the pair [(error, result)]
    it leaves.  Both start as [null]; an exception is thrown by [JSON.parse]
    before the assignment it feeds, so [result] is still [null] in the
    handler. *)
Definition classify (statusCode : Z) (responseBody : jsstring) : jsval * jsval :=
  let error := Null in
  let result := Null in
  let attempt :=
    if Z.eqb statusCode 204 then Normal (error, Bool true)
    else if Z.leb 200 statusCode && Z.ltb statusCode 300 then
      parsed <- JSON.parse responseBody ;; Normal (error, parsed)
    else
      parsed <- JSON.parse responseBody ;; Normal (parsed, result)
  in
  match attempt with
  | Normal state => state
  | Throw exception => (unexpected_reply responseBody, result)
  end.

(** The ["end"] listener of a response with status [statusCode] whose body
    arrived as [chunks]. *)
Definition response_end (callback : arg) (statusCode : Z) (chunks : list jsstring) : reaction :=
  let responseBody := fold_left (fun body chunk => body ++ chunk) chunks [] in
  let (error, result) := classify statusCode responseBody in
  invoke_callback callback [error; result].

(** The ["error"] listener of the request. *)
Definition request_error (callback : arg) (error : jsval) : reaction :=
  invoke_callback callback [request_failed error].

(** ** The prototype members *)

(** The first lines of [request] and [postAction]. *)
Definition normalize (options callback : arg) : Lodash.object jsstring * arg :=
  if negb (isObject options) || isFunction options
  then ([], options)
  else (properties options, callback).

Definition default_accept (apiVersion : jsstring) : jsstring :=
  lit "application/vnd.speakap.api-v" ++ apiVersion ++ lit "+json".

(** The [headers] object that [request] builds, and the [buffer]. *)
Definition build_headers (this : Client) (data : option jsstring)
    (options : Lodash.object jsstring) : Lodash.object jsval * option (list N) :=
  let headers :=
    [(lit "Accept",
      Str (or_default (Lodash.get options (lit "accept"))
                      (default_accept (apiVersion this))))] in
  let accessToken :=
    or_else (Lodash.get options (lit "accessToken")) (accessToken this) in
  let headers :=
    if truthy accessToken
    then Lodash.set headers (lit "Authorization")
                    (Str (lit "Bearer " ++ ToString accessToken))
    else headers in
  if truthy data then
    let buffer := Buffer_from (ToString data) in
    let headers :=
      Lodash.set headers (lit "Content-length") (Int (Z.of_nat (List.length buffer))) in
    let contentType :=
      or_default (Lodash.get options (lit "contentType")) (lit "application/json") in
    let headers :=
      Lodash.set headers (lit "Content-type") (Str (contentType ++ lit "; charset=utf-8")) in
    (headers, Some buffer)
  else (headers, None).

Section Request.

Variable request_throws : transport_check.

Definition request (this : Client) (method path : jsstring)
    (data : option jsstring) (options callback : arg) : M unit :=
  let (options, callback) := normalize options callback in
  let (headers, buffer) := build_headers this data options in
  req <-- scheme_request request_throws (scheme this) headers (hostname this)
            method path callback ;;
  _ <-- req_on_error req callback ;;
  _ <-- match buffer with
        | Some b => req_write req b
        | None => mret tt
        end ;;
  req_end req.

End Request.

Section Members.

(** [JSON.stringify(data)]: a string, [undefined] for a value without a
    JSON form, or an exception. *)
Variable JSON_stringify : jsval -> completion (option jsstring).

(** [this[name](method, path, data, options, callback)] *)
Variable this_call :
  jsstring -> jsstring -> jsstring -> option jsstring -> arg -> arg -> M unit.

Definition delete (path : jsstring) (options callback : arg) : M unit :=
  this_call (lit "request") (lit "DELETE") path None options callback.

Definition get (path : jsstring) (options callback : arg) : M unit :=
  this_call (lit "request") (lit "GET") path None options callback.

Definition post (path : jsstring) (data : jsval) (options callback : arg) : M unit :=
  body <-- lift (JSON_stringify data) ;;
  this_call (lit "request") (lit "POST") path body options callback.

(** The callback of [_.map] in [postAction]. *)
Definition formPair (kv : jsstring * jsstring) : completion jsstring :=
  k <- encodeURIComponent (fst kv) ;;
  v <- encodeURIComponent (snd kv) ;;
  Normal (k ++ lit "=" ++ v).

Definition postAction (path : jsstring) (data : option (Lodash.object jsstring))
    (options callback : arg) : M unit :=
  data <-- lift (match data with
                 | Some fields =>
                     parts <- mapM formPair fields ;;
                     Normal (Some (join (lit "&") parts))
                 | None => Normal None
                 end) ;;
  let (options, callback) := normalize options callback in
  this_call (lit "_request") (lit "POST") path data
    (ArgObject
       (Lodash.extend
          [(lit "contentType", lit "application/x-www-form-urlencoded")]
          options))
    callback.

Definition put (path : jsstring) (data : jsval) (options callback : arg) : M unit :=
  body <-- lift (JSON_stringify data) ;;
  this_call (lit "_request") (lit "PUT") path body options callback.

End Members.

(** ** Member lookup on [this] *)

(** The properties the constructor assigns on the instance; none of them
    holds a function. *)
Definition instance_properties : list jsstring :=
  [lit "scheme"; lit "hostname"; lit "appId"; lit "appSecret";
   lit "apiVersion"; lit "accessToken"].

(** How a member that does not take [(method, path, data, options,
    callback)] binds these five arguments to its own parameters, by
    position. *)
Definition arg_of_data (data : option jsstring) : arg :=
  match data with
  | Some s => ArgString s
  | None => ArgNull
  end.

Definition decimal (n : nat) : jsstring :=
  lit (DecimalString.NilEmpty.string_of_uint (Nat.to_uint n)).

(** A string where [postAction] expects the form fields: [_.map] walks its
    code units under their indices; the empty string is falsy. *)
Definition form_of_string (s : jsstring) : option (Lodash.object jsstring) :=
  match s with
  | [] => None
  | _ => Some (combine (map decimal (seq 0 (List.length s))) (map (fun c => [c]) s))
  end.

Definition member :=
  jsstring -> jsstring -> option jsstring -> arg -> arg -> M unit.

Section Prototype.

Variable request_throws : transport_check.
Variable JSON_stringify : jsval -> completion (option jsstring).

(** The object that [_.extend] installs on [API.prototype]: six members,
    here as they run when called with the five arguments of a call made
    through [this]. *)
Definition API_prototype (this : Client) (this_call : jsstring -> member)
    : Lodash.object member :=
  [(lit "delete", fun a1 a2 a3 _ _ =>
      delete this_call a1 (ArgString a2) (arg_of_data a3));
   (lit "get", fun a1 a2 a3 _ _ =>
      get this_call a1 (ArgString a2) (arg_of_data a3));
   (lit "post", fun a1 a2 a3 a4 _ =>
      post JSON_stringify this_call a1 (Str a2) (arg_of_data a3) a4);
   (lit "postAction", fun a1 a2 a3 a4 _ =>
      postAction this_call a1 (form_of_string a2) (arg_of_data a3) a4);
   (lit "put", fun a1 a2 a3 a4 _ =>
      put JSON_stringify this_call a1 (Str a2) (arg_of_data a3) a4);
   (lit "request", request request_throws this)].

Definition not_a_function (name : jsstring) : exn :=
  TypeError (lit "this." ++ name ++ lit " is not a function").

(** [this[name](...)] with [depth] frames left on the call stack: the
    property is looked up on the instance, then on the prototype; calling
    what is not a function throws a [TypeError]. *)
Fixpoint invoke (depth : nat) (this : Client) (name : jsstring) : member :=
  fun method path data options callback =>
    match depth with
    | O => throw (RangeError (lit "Maximum call stack size exceeded"))
    | S d =>
        if existsb (jsstring_eqb name) instance_properties
        then throw (not_a_function name)
        else
          match Lodash.get (API_prototype this (invoke d this)) name with
          | Some f => f method path data options callback
          | None => throw (not_a_function name)
          end
    end.

End Prototype.

(* ================================================================== *)
(** * The example notifier *)
(* ================================================================== *)

(** [examples/node/notifier.js]: a [Notifier] holds a [speakapApi] and tells
    a user about a schedule, by an alert or by a timeline message.  The
    identifiers and the week are strings here. *)

(** The object posted by [sendDeletedScheduleNotification]. *)
Definition deletedScheduleAlert (userEid week : jsstring) (appData : jsval) : jsval :=
  let bodyDE := lit "Sie sind nicht mehr zum Arbeiten in Woche " ++ week ++ lit " eingeplant." in
  let bodyEN := lit "You are no longer scheduled to work in week " ++ week ++ lit "." in
  let bodyNL := lit "Je bent niet meer ingeroosterd voor week " ++ week ++ lit "." in
  Obj [(lit "appData", appData);
       (lit "recipients",
        Arr [Obj [(lit "type", Str (lit "user")); (lit "EID", Str userEid)]]);
       (lit "localizableBody",
        Obj [(lit "de-DE", Str bodyDE); (lit "en-US", Str bodyEN);
             (lit "nl-NL", Str bodyNL)])].

(** The object posted by [sendNewScheduleNotification]; 252 is the code unit
    of the u with diaeresis of the German text. *)
Definition newScheduleMessage (userEid week : jsstring) (appData : jsval) : jsval :=
  let bodyDE :=
    lit "Ihr Plan f" ++ [252%N] ++ lit "r Woche " ++ week
    ++ lit " ist verf" ++ [252%N] ++ lit "gbar." in
  let bodyEN := lit "Your schedule for week " ++ week ++ lit " is available." in
  let bodyNL := lit "Je rooster voor week " ++ week ++ lit " staat klaar." in
  Obj [(lit "appData", appData);
       (lit "messageType", Str (lit "app_update"));
       (lit "recipient",
        Obj [(lit "type", Str (lit "user")); (lit "EID", Str userEid)]);
       (lit "localizableBody",
        Obj [(lit "de-DE", Str bodyDE); (lit "en-US", Str bodyEN);
             (lit "nl-NL", Str bodyNL)])].

Section Notifier.

(** [this.speakapApi.post]; the notifier calls it with three arguments, so
    that the callback arrives as [options] and [callback] is [undefined]. *)
Variable speakapApi_post : jsstring -> jsval -> arg -> arg -> M unit.

Definition sendDeletedScheduleNotification (networkEid userEid week : jsstring)
    (appData : jsval) (callback : arg) : M unit :=
  speakapApi_post (lit "/networks/" ++ networkEid ++ lit "/alerts/")
    (deletedScheduleAlert userEid week appData) callback ArgUndefined.

Definition sendNewScheduleNotification (networkEid userEid week : jsstring)
    (appData : jsval) (callback : arg) : M unit :=
  speakapApi_post (lit "/networks/" ++ networkEid ++ lit "/messages/")
    (newScheduleMessage userEid week appData) callback ArgUndefined.

End Notifier.

(* ================================================================== *)
(** * Notions used to state the properties *)
(* ================================================================== *)

(** [a <= b] in code-unit order. *)
Definition str_le (a b : jsstring) : Prop := str_leb a b = true.

(** An array in ascending order. *)
Definition ascending : list jsstring -> Prop := StronglySorted str_le.

(** The pairs of [keys], encoded and joined: the body shared by
    [signedRequest] and [validateSignature]. *)
Definition encodePairs (params : ParameterSet) (keys : list jsstring) : completion jsstring :=
  parts <- mapM (encodePair params) keys ;; Normal (join (lit "&") parts).

(** What the specification asks of [percentEncode]: component encoding, then
    every occurrence of each of the five marks escaped. *)
Definition percentEncode_spec (str : jsstring) : completion jsstring :=
  e <- encodeURIComponent str ;;
  Normal (replace_all 42 (lit "%2A")
         (replace_all 41 (lit "%29")
         (replace_all 40 (lit "%28")
         (replace_all 39 (lit "%27")
         (replace_all 33 (lit "%21") e))))).

(** The error of a rejected configuration. *)
Definition InvalidConfig : exn :=
  Error (lit "Speakap scheme should be http or https").

(** The token the constructor derives. *)
Definition derived_token (appId appSecret : option jsstring) : option jsstring :=
  if truthy appId && truthy appSecret
  then Some (ToString appId ++ lit "_" ++ ToString appSecret)
  else None.

(** The request of a call of [request]: the one it asks the transport for
    and, when the transport takes it, leaves behind: created, given its
    ["error"] listener, written to when there is a body, and ended. *)
Definition sent_request (this : Client) (method path : jsstring)
    (data : option jsstring) (options callback : arg) : ClientRequest :=
  let (o, cb) := normalize options callback in
  let (headers, buffer) := build_headers this data o in
  {| req_module := scheme this;
     req_headers := headers;
     req_hostname := hostname this;
     req_method := method;
     req_path := path;
     req_response_callback := cb;
     req_error_callback := Some cb;
     req_written := match buffer with Some b => [b] | None => [] end;
     req_ended := true |}.

(** What comes of asking the transport for the request [r] when the requests
    so far are [w]: the transport throws and no request is added, or [r]
    comes after those there were. *)
Definition sending (request_throws : transport_check) (r : ClientRequest) (w : World)
    : completion unit * World :=
  match request_throws (req_module r) (req_headers r) (req_hostname r)
                       (req_method r) (req_path r) with
  | Some e => (Throw e, w)
  | None => (Normal tt, w ++ [r])
  end.

(** A transport that refuses a path with a space or a control character,
    and nothing else: one of the tests of node's [http.request]. *)
Definition unescaped_characters : exn :=
  TypeError (lit "Request path contains unescaped characters").

Definition unescaped_path : transport_check :=
  fun _ _ _ _ path =>
    if existsb (fun c => N.leb c 32) path then Some unescaped_characters else None.

(** A callback argument is populated when it holds a value: anything but
    [null] and [undefined]. *)
Definition populated (v : jsval) : bool :=
  match v with
  | Undefined | Null => false
  | _ => true
  end.

(** Every value [JSON.parse] returns is [null] or populated: it never
    returns [undefined]. *)
Definition defined (v : jsval) : Prop := v <> Undefined.

(** What the scanner and the parser of [JSON.parse] maintain. *)
Definition token_ok (t : JSON.token) : Prop :=
  match t with
  | JSON.T_scalar v => defined v
  | _ => True
  end.

Definition lexstate_ok (st : JSON.lexstate) : Prop :=
  match st with
  | JSON.L_literal _ v => defined v
  | _ => True
  end.

Definition mode_ok (m : JSON.mode) : Prop :=
  match m with
  | JSON.Done v => defined v
  | _ => True
  end.

(** The [i]-th argument of a call; an argument that is not passed is
    [undefined]. *)
Definition argument (args : list jsval) (i : nat) : jsval := nth i args Undefined.

(** A code unit that delimits the parts of a query string or of a URI: one
    below the letters that is neither a digit, nor the percent sign, nor an
    unreserved mark.  The ampersand, the equals sign, the space and the plus
    sign are delimiters. *)
Definition delimiter (c : N) : bool :=
  N.ltb c 65 && negb (uriUnreserved c) && negb (N.eqb c 37).

(** How often a code unit occurs in a string. *)
Definition occurrences (c : N) (s : jsstring) : nat := count_occ N.eq_dec s c.

(** The five marks [! ' ( ) *] that [percentEncode] escapes on top of
    [encodeURIComponent]. *)
Definition marks : list N := [33; 39; 40; 41; 42]%N.

(** The content type [postAction] asks for unless the call names one. *)
Definition form_urlencoded : jsstring := lit "application/x-www-form-urlencoded".

(** The error of a handler whose callback is neither absent nor a
    function. *)
Definition callback_not_a_function : exn :=
  TypeError (lit "callback is not a function").

(* ================================================================== *)
(** * Facts about strings, sorting and objects *)
(* ================================================================== *)

Section StringOrder.

Lemma jsstring_eqb_eq (a b : jsstring) : jsstring_eqb a b = true <-> a = b.
Proof.
  revert b; induction a as [|x a IH]; intros [|y b]; simpl;
    try (split; [discriminate | congruence]); try tauto.
  rewrite andb_true_iff, N.eqb_eq, IH.
  split; [intros [-> ->]; reflexivity | intros H; inversion H; auto].
Qed.

Lemma jsstring_eqb_refl (a : jsstring) : jsstring_eqb a a = true.
Proof. apply jsstring_eqb_eq; reflexivity. Qed.

Lemma jsstring_eqb_neq (a b : jsstring) : jsstring_eqb a b = false <-> a <> b.
Proof.
  rewrite <- jsstring_eqb_eq.
  destruct (jsstring_eqb a b); split; congruence.
Qed.

Lemma str_ltb_irrefl (a : jsstring) : str_ltb a a = false.
Proof.
  induction a as [|x a IH]; simpl; auto.
  rewrite N.ltb_irrefl, N.eqb_refl; simpl; exact IH.
Qed.

Lemma str_ltb_cases (x y : N) (a b : jsstring) :
  str_ltb (x :: a) (y :: b) = true <->
  (x < y)%N \/ (x = y /\ str_ltb a b = true).
Proof.
  simpl. rewrite orb_true_iff, andb_true_iff, N.ltb_lt, N.eqb_eq. tauto.
Qed.

(** The order is connected: two strings neither of which is below the
    other are equal. *)
Lemma str_ltb_connected (a b : jsstring) :
  str_ltb a b = false -> str_ltb b a = false -> a = b.
Proof.
  revert b; induction a as [|x a IH]; intros [|y b] Hab Hba; auto;
    try discriminate.
  assert (Hab' : ~ ((x < y)%N \/ (x = y /\ str_ltb a b = true)))
    by (rewrite <- str_ltb_cases, Hab; discriminate).
  assert (Hba' : ~ ((y < x)%N \/ (y = x /\ str_ltb b a = true)))
    by (rewrite <- str_ltb_cases, Hba; discriminate).
  assert (x = y) by lia. subst y.
  f_equal. apply IH.
  - destruct (str_ltb a b); auto. exfalso; apply Hab'; auto.
  - destruct (str_ltb b a); auto. exfalso; apply Hba'; auto.
Qed.

Lemma str_ltb_asym (a b : jsstring) :
  str_ltb a b = true -> str_ltb b a = false.
Proof.
  revert b; induction a as [|x a IH]; intros [|y b]; simpl; auto;
    try discriminate.
  rewrite orb_true_iff, andb_true_iff, N.ltb_lt, N.eqb_eq.
  intros [H | [-> H]].
  - apply orb_false_iff; split; [apply N.ltb_ge; lia|].
    apply andb_false_iff; left; apply N.eqb_neq; lia.
  - rewrite N.ltb_irrefl, N.eqb_refl; simpl. apply IH, H.
Qed.

Lemma str_ltb_trans (a b c : jsstring) :
  str_ltb a b = true -> str_ltb b c = true -> str_ltb a c = true.
Proof.
  revert b c; induction a as [|x a IH]; intros [|y b] [|z c]; simpl; auto;
    try discriminate.
  rewrite !orb_true_iff, !andb_true_iff, !N.ltb_lt, !N.eqb_eq.
  intros [H1 | [-> H1]] [H2 | [-> H2]]; try (left; lia); try (left; assumption).
  right; split; auto. eapply IH; eauto.
Qed.

Lemma str_le_refl (a : jsstring) : str_le a a.
Proof. unfold str_le, str_leb. rewrite str_ltb_irrefl; reflexivity. Qed.

Lemma str_le_antisym (a b : jsstring) : str_le a b -> str_le b a -> a = b.
Proof.
  unfold str_le, str_leb; intros H1 H2.
  apply negb_true_iff in H1, H2. apply str_ltb_connected; assumption.
Qed.

Lemma str_le_total (a b : jsstring) : str_le a b \/ str_le b a.
Proof.
  unfold str_le, str_leb.
  destruct (str_ltb b a) eqn:E; [right | left; reflexivity].
  rewrite (str_ltb_asym _ _ E); reflexivity.
Qed.

Lemma str_le_trans (a b c : jsstring) : str_le a b -> str_le b c -> str_le a c.
Proof.
  unfold str_le, str_leb; intros H1 H2.
  apply negb_true_iff in H1, H2. apply negb_true_iff.
  destruct (str_ltb c a) eqn:Hca; auto.
  destruct (str_ltb c b) eqn:Hcb; [discriminate|].
  destruct (str_ltb b c) eqn:Hbc.
  - rewrite (str_ltb_trans _ _ _ Hbc Hca) in H1; discriminate.
  - rewrite (str_ltb_connected _ _ Hbc Hcb) in H1; congruence.
Qed.

End StringOrder.

Section Sorting.

Lemma insert_perm (k : jsstring) (l : list jsstring) :
  Permutation (k :: l) (insert k l).
Proof.
  induction l as [|h t IH]; simpl; auto.
  destruct (str_leb k h); auto.
  rewrite perm_swap. constructor. exact IH.
Qed.

Lemma sort_perm (l : list jsstring) : Permutation l (sort l).
Proof.
  induction l as [|k l IH]; simpl; auto.
  rewrite <- insert_perm. constructor. exact IH.
Qed.

Lemma insert_ascending (k : jsstring) (l : list jsstring) :
  ascending l -> ascending (insert k l).
Proof.
  unfold ascending.
  induction l as [|h t IH]; simpl; intros Hs.
  - constructor; constructor.
  - destruct (str_leb k h) eqn:E.
    + constructor; auto. constructor; auto.
      inversion Hs as [|? ? _ Hall]; subst.
      eapply Forall_impl; [|exact Hall].
      intros c Hc. eapply str_le_trans; eauto.
    + inversion Hs as [|? ? Ht Hall]; subst.
      constructor; auto.
      assert (Hhk : str_le h k).
      { destruct (str_le_total k h) as [H|H]; auto.
        unfold str_le in H; congruence. }
      eapply Permutation_Forall; [apply insert_perm|].
      constructor; auto.
Qed.

Lemma sort_ascending (l : list jsstring) : ascending (sort l).
Proof.
  induction l as [|k l IH]; simpl.
  - constructor.
  - apply insert_ascending, IH.
Qed.

(** Two ascending lists with the same elements are the same list. *)
Lemma ascending_unique (l1 l2 : list jsstring) :
  ascending l1 -> ascending l2 -> Permutation l1 l2 -> l1 = l2.
Proof.
  unfold ascending. revert l2.
  induction l1 as [|a l1 IH]; intros l2 H1 H2 HP.
  - apply Permutation_nil in HP; auto.
  - destruct l2 as [|b l2].
    + apply Permutation_sym, Permutation_nil in HP; discriminate.
    + inversion H1 as [|? ? H1t H1a]; inversion H2 as [|? ? H2t H2b]; subst.
      assert (a = b).
      { assert (Ha : In a (b :: l2))
          by (eapply Permutation_in; [exact HP | left; reflexivity]).
        assert (Hb : In b (a :: l1))
          by (eapply Permutation_in;
              [apply Permutation_sym; exact HP | left; reflexivity]).
        destruct Ha as [->|Ha]; auto.
        destruct Hb as [->|Hb]; auto.
        rewrite Forall_forall in H1a, H2b.
        apply str_le_antisym; auto. }
      subst b. f_equal. apply IH; auto.
      eapply Permutation_cons_inv; exact HP.
Qed.

(** The result of [sort] depends only on the elements of the array, not on
    the order they come in. *)
Lemma sort_permutation_invariant (l1 l2 : list jsstring) :
  Permutation l1 l2 -> sort l1 = sort l2.
Proof.
  intros HP. apply ascending_unique; try apply sort_ascending.
  rewrite <- !sort_perm. exact HP.
Qed.

Lemma without_ascending (l : list jsstring) (x : jsstring) :
  ascending l -> ascending (Lodash.without l x).
Proof.
  unfold ascending, Lodash.without.
  induction 1 as [|a l Hs IH Hall]; simpl; [constructor|].
  destruct (negb (jsstring_eqb a x)); auto.
  constructor; auto.
  rewrite Forall_forall in *. intros c Hc.
  apply filter_In in Hc. apply Hall, Hc.
Qed.

Lemma without_perm (l1 l2 : list jsstring) (x : jsstring) :
  Permutation l1 l2 -> Permutation (Lodash.without l1 x) (Lodash.without l2 x).
Proof.
  unfold Lodash.without.
  induction 1; simpl; auto.
  - destruct (negb (jsstring_eqb x0 x)); auto.
  - destruct (negb (jsstring_eqb x0 x)), (negb (jsstring_eqb y x)); auto.
    apply perm_swap.
  - etransitivity; eauto.
Qed.

(** Removing a key before or after sorting gives the same array. *)
Lemma sort_without (l : list jsstring) (x : jsstring) :
  sort (Lodash.without l x) = Lodash.without (sort l) x.
Proof.
  apply ascending_unique.
  - apply sort_ascending.
  - apply without_ascending, sort_ascending.
  - rewrite <- sort_perm. apply without_perm, sort_perm.
Qed.

Lemma without_absent (l : list jsstring) (x : jsstring) :
  ~ In x l -> Lodash.without l x = l.
Proof.
  unfold Lodash.without.
  induction l as [|a l IH]; simpl; intros Hn; auto.
  destruct (jsstring_eqb a x) eqn:E; simpl.
  - apply jsstring_eqb_eq in E. exfalso; apply Hn; auto.
  - f_equal; apply IH; tauto.
Qed.

End Sorting.

Section Objects.

Context {V : Type}.

Lemma get_In (o : Lodash.object V) (k : jsstring) (v : V) :
  Lodash.well_formed o -> (Lodash.get o k = Some v <-> In (k, v) o).
Proof.
  unfold Lodash.well_formed.
  induction o as [|[k' v'] o IH]; simpl; intros Hwf.
  - split; [discriminate | tauto].
  - inversion Hwf as [|? ? Hnin Hnd]; subst.
    destruct (jsstring_eqb k' k) eqn:E.
    + apply jsstring_eqb_eq in E; subst k'.
      split; [intros [= ->]; auto|].
      intros [[= ->]|Hin]; auto.
      exfalso; apply Hnin. apply (in_map fst) in Hin; exact Hin.
    + apply jsstring_eqb_neq in E.
      rewrite (IH Hnd). split; auto.
      intros [[= -> ->]|Hin]; [congruence | auto].
Qed.

Lemma get_None (o : Lodash.object V) (k : jsstring) :
  Lodash.get o k = None <-> ~ In k (Lodash.keys o).
Proof.
  unfold Lodash.keys.
  induction o as [|[k' v'] o IH]; simpl; [tauto|].
  destruct (jsstring_eqb k' k) eqn:E.
  - apply jsstring_eqb_eq in E. split; [discriminate | tauto].
  - apply jsstring_eqb_neq in E. rewrite IH. tauto.
Qed.

(** Reading a property does not depend on the order in which the
    properties were added. *)
Lemma get_permutation (o1 o2 : Lodash.object V) (k : jsstring) :
  Lodash.well_formed o1 -> Permutation o1 o2 ->
  Lodash.get o1 k = Lodash.get o2 k.
Proof.
  intros Hwf HP.
  assert (Hwf2 : Lodash.well_formed o2).
  { unfold Lodash.well_formed in *.
    eapply Permutation_NoDup; [apply Permutation_map; exact HP | exact Hwf]. }
  destruct (Lodash.get o1 k) as [v|] eqn:E1.
  - symmetry. apply (get_In k v Hwf2).
    eapply Permutation_in; [exact HP|]. apply (get_In k v Hwf); exact E1.
  - destruct (Lodash.get o2 k) as [v|] eqn:E2; auto.
    apply (get_In k v Hwf2) in E2.
    apply Permutation_sym in HP.
    apply (Permutation_in _ HP), (get_In k v Hwf) in E2. congruence.
Qed.

End Objects.

(* ================================================================== *)
(** * Signed requests: the properties *)
(* ================================================================== *)

Section Loops.

Context {A B : Type}.

Lemma mapM_ext (f g : A -> completion B) (xs : list A) :
  (forall x, In x xs -> f x = g x) -> mapM f xs = mapM g xs.
Proof.
  induction xs as [|x xs IH]; simpl; intros H; auto.
  rewrite (H x) by auto. rewrite IH by auto. reflexivity.
Qed.

Lemma mapM_app (f : A -> completion B) (xs ys : list A) :
  mapM f (xs ++ ys) =
  (a <- mapM f xs ;; b <- mapM f ys ;; Normal (a ++ b)).
Proof.
  induction xs as [|x xs IH]; simpl.
  - destruct (mapM f ys); reflexivity.
  - destruct (f x); simpl; auto.
    rewrite IH. destruct (mapM f xs); simpl; auto.
    destruct (mapM f ys); reflexivity.
Qed.

Lemma mapM_Forall (P : B -> Prop) (f : A -> completion B) (xs : list A) (ys : list B) :
  (forall x y, f x = Normal y -> P y) ->
  mapM f xs = Normal ys -> Forall P ys.
Proof.
  intros Hf. revert ys; induction xs as [|x xs IH]; simpl; intros ys H.
  - injection H as <-; constructor.
  - destruct (f x) as [y|] eqn:E; simpl in H; [|discriminate].
    destruct (mapM f xs) as [ys'|]; simpl in H; [|discriminate].
    injection H as <-. constructor; eauto.
Qed.

End Loops.

Lemma join_snoc (sep : jsstring) (parts : list jsstring) (p : jsstring) :
  join sep (parts ++ [p]) =
  match parts with
  | [] => p
  | _ => join sep parts ++ sep ++ p
  end.
Proof.
  induction parts as [|a parts IH]; simpl; auto.
  destruct parts as [|b parts]; simpl in *; auto.
  rewrite IH. rewrite <- !app_assoc. reflexivity.
Qed.

Lemma join_nonempty (sep : jsstring) (parts : list jsstring) :
  Forall (fun p => p <> []) parts -> parts <> [] -> join sep parts <> [].
Proof.
  intros Hall Hne. destruct parts as [|a parts]; [congruence|].
  inversion Hall as [|? ? Ha _]; subst.
  destruct a as [|c a]; [congruence|].
  destruct parts; simpl; discriminate.
Qed.

Lemma encodePair_nonempty (params : ParameterSet) (key pair : jsstring) :
  encodePair params key = Normal pair -> pair <> [].
Proof.
  unfold encodePair.
  destruct (percentEncode key) as [k|]; simpl; [|discriminate].
  destruct (percentEncode _) as [v|]; simpl; [|discriminate].
  intros [= <-]. destruct k; discriminate.
Qed.

Lemma encodePair_permutation (P Q : ParameterSet) (key : jsstring) :
  Lodash.well_formed P -> Permutation P Q -> encodePair Q key = encodePair P key.
Proof.
  intros Hwf HP. unfold encodePair.
  rewrite (get_permutation key Hwf HP). reflexivity.
Qed.

(** ** [percentEncode] *)

(** C3 (fails on the code): on a string with two exclamation marks,
    [percentEncode] escapes the first and leaves the second, where the
    specification asks for both escaped.  A string pattern given to
    [replace] is replaced once. *)
Theorem percentEncode_escapes_first_occurrence_only :
  percentEncode (lit "!!") = Normal (lit "%21!") /\
  percentEncode_spec (lit "!!") = Normal (lit "%21%21").
Proof. split; reflexivity. Qed.

(** The two agree on the five marks taken one at a time. *)
Lemma percentEncode_single_marks :
  map percentEncode [lit "!"; lit "'"; lit "("; lit ")"; lit "*"] =
  map (@Normal _) [lit "%21"; lit "%27"; lit "%28"; lit "%29"; lit "%2A"].
Proof. reflexivity. Qed.

(** ** The canonical string *)

Lemma queryString_encodePairs (params : ParameterSet) :
  queryString params =
  encodePairs params (Lodash.without (sort (Lodash.keys params)) (lit "signature")).
Proof. reflexivity. Qed.

Lemma signedRequest_encodePairs (params : ParameterSet) :
  signedRequest params =
  encodePairs params
    (Lodash.without (sort (Lodash.keys params)) (lit "signature") ++ [lit "signature"]).
Proof.
  unfold signedRequest, encodePairs. rewrite sort_without. reflexivity.
Qed.

Lemma encodePairs_permutation (P Q : ParameterSet) (keys : list jsstring) :
  Lodash.well_formed P -> Permutation P Q ->
  encodePairs Q keys = encodePairs P keys.
Proof.
  intros Hwf HP. unfold encodePairs.
  rewrite (mapM_ext (encodePair Q) (encodePair P)); auto.
  intros; apply encodePair_permutation; auto.
Qed.

Lemma sorted_keys_permutation (P Q : ParameterSet) :
  Permutation P Q -> sort (Lodash.keys Q) = sort (Lodash.keys P).
Proof.
  intros HP. apply sort_permutation_invariant, Permutation_sym.
  unfold Lodash.keys. apply Permutation_map, HP.
Qed.

(** C4: for a parameter set [P] without a [signature] key, the canonical
    string is the same for every order [Q] in which the entries of [P] may
    have been inserted, in [validateSignature] and in [signedRequest] alike;
    it lists the pairs of all keys of [P] in ascending order. *)
Theorem canonical_string_order_independent (P Q : ParameterSet) :
  Lodash.well_formed P ->
  Lodash.get P (lit "signature") = None ->
  Permutation P Q ->
  queryString Q = queryString P /\
  signedRequest Q = signedRequest P /\
  exists keys,
    ascending keys /\ Permutation keys (Lodash.keys P) /\
    queryString P = encodePairs P keys.
Proof.
  intros Hwf Hsig HP. repeat split.
  - rewrite !queryString_encodePairs, (sorted_keys_permutation HP).
    apply encodePairs_permutation; auto.
  - rewrite !signedRequest_encodePairs, (sorted_keys_permutation HP).
    apply encodePairs_permutation; auto.
  - exists (sort (Lodash.keys P)). split; [apply sort_ascending|].
    split; [apply Permutation_sym, sort_perm|].
    rewrite queryString_encodePairs, without_absent; auto.
    intros Hin. apply (proj1 (get_None P (lit "signature")) Hsig).
    eapply Permutation_in; [apply Permutation_sym, sort_perm | exact Hin].
Qed.

Lemma canonical_string_order_independent_witness :
  let P := [(lit "b", lit "x y"); (lit "a", lit "1")] in
  let Q := [(lit "a", lit "1"); (lit "b", lit "x y")] in
  queryString Q = queryString P /\ queryString P = Normal (lit "a=1&b=x%20y").
Proof.
  split; [|reflexivity].
  apply (@canonical_string_order_independent
           [(lit "b", lit "x y"); (lit "a", lit "1")]
           [(lit "a", lit "1"); (lit "b", lit "x y")]).
  - repeat constructor; simpl; intuition discriminate.
  - reflexivity.
  - apply perm_swap.
Defined.

(** ** [signedRequest] *)

(** C5 (as stated, fails): a parameter set without a [signature] entry does
    not give the bare canonical string; a [signature=undefined] pair is
    appended all the same. *)
Lemma signedRequest_without_signature_entry :
  Lodash.get [(lit "a", lit "1")] (lit "signature") = None /\
  queryString [(lit "a", lit "1")] = Normal (lit "a=1") /\
  signedRequest [(lit "a", lit "1")] = Normal (lit "a=1&signature=undefined").
Proof. repeat split. Qed.

(** C5 (amended): [signedRequest] is the canonical string (the [signature]
    key left out) followed by one last pair [signature=v], [v] being the
    encoding of [params.signature]: of the entry when there is one, of
    [undefined] when there is none.  The pair is always appended, and no
    signature is computed. *)
Theorem signedRequest_appends_signature_pair (params : ParameterSet) :
  signedRequest params =
  (canonical <- queryString params ;;
   v <- percentEncode (ToString (Lodash.get params (lit "signature"))) ;;
   Normal (match canonical with
           | [] => lit "signature=" ++ v
           | _ => canonical ++ lit "&signature=" ++ v
           end)).
Proof.
  rewrite signedRequest_encodePairs, queryString_encodePairs.
  unfold encodePairs. rewrite mapM_app.
  destruct (mapM _ (Lodash.without _ _)) as [parts|] eqn:E; simpl; auto.
  change (encodePair params (lit "signature"))
    with (v <- percentEncode (ToString (Lodash.get params (lit "signature"))) ;;
          Normal (lit "signature=" ++ v)).
  destruct (percentEncode (ToString _)) as [v|]; simpl; auto.
  rewrite join_snoc. destruct parts as [|p parts]; [reflexivity|].
  assert (Hne : join (lit "&") (p :: parts) <> []).
  { apply join_nonempty; [|discriminate].
    eapply mapM_Forall; [|exact E].
    intros x y. apply encodePair_nonempty. }
  destruct (join (lit "&") (p :: parts)); [congruence | reflexivity].
Qed.

(** ** [validateSignature] *)

Section VerificationFacts.

Variable hmac_sha256_base64 : jsstring -> jsstring -> jsstring.
Variable Date_parse : jsstring -> timevalue.

Lemma strict_neq_false (a : jsstring) (b : option jsstring) :
  strict_neq a b = false <-> b = Some a.
Proof.
  destruct b as [s|]; simpl; [|split; discriminate].
  rewrite negb_false_iff, jsstring_eqb_eq. split; congruence.
Qed.

(** What the code checks: the signature, and that the request is not
    expired, a test that an invalid date passes. *)
Lemma validateSignature_returns_iff (now : Z) (params : ParameterSet) (appSecret : jsstring) :
  validateSignature hmac_sha256_base64 Date_parse now params appSecret = Normal tt <->
  exists canonical,
    queryString params = Normal canonical /\
    Lodash.get params (lit "signature")
      = Some (hmac_sha256_base64 appSecret canonical) /\
    match getTime Date_parse (Lodash.get params (lit "issuedAt")) with
    | NaN => True
    | Time issuedAt => (now <= issuedAt + 60000)%Z
    end.
Proof.
  unfold validateSignature.
  destruct (queryString params) as [q|e]; simpl.
  2:{ split; [discriminate | intros (c & H & _); discriminate]. }
  destruct (strict_neq _ _) eqn:Hs.
  - split; [discriminate|]. intros (c & [= <-] & Hsig & _).
    apply strict_neq_false in Hsig. congruence.
  - apply strict_neq_false in Hs.
    destruct (getTime Date_parse _) as [|ms]; simpl.
    + split; auto. intros _. exists q; auto.
    + unfold SIGNATURE_WINDOW_SIZE.
      destruct (Z.ltb_spec (ms + 60 * 1000) now).
      * split; [discriminate|]. intros (c & _ & _ & H'). lia.
      * split; auto. intros _. exists q. repeat split; auto; lia.
Qed.

(** C1 (fails on the code): a request whose signature matches and whose
    [issuedAt] is not a valid date is accepted, at any time; the claim says
    that verification fails.  [Date.now() > NaN] is false. *)
Theorem validateSignature_accepts_invalid_issuedAt
    (now : Z) (params : ParameterSet) (appSecret canonical : jsstring) :
  queryString params = Normal canonical ->
  Lodash.get params (lit "signature")
    = Some (hmac_sha256_base64 appSecret canonical) ->
  getTime Date_parse (Lodash.get params (lit "issuedAt")) = NaN ->
  validateSignature hmac_sha256_base64 Date_parse now params appSecret = Normal tt.
Proof.
  intros Hq Hsig Hnan. apply validateSignature_returns_iff.
  exists canonical. rewrite Hnan. auto.
Qed.

End VerificationFacts.

Lemma validateSignature_accepts_invalid_issuedAt_witness :
  let hmac := fun key data : jsstring => key ++ lit ":" ++ data in
  let params :=
    [(lit "issuedAt", lit "garbage");
     (lit "signature", lit "s3cr3t:issuedAt=garbage")] in
  validateSignature hmac (fun _ => NaN) 1400000000000 params (lit "s3cr3t")
  = Normal tt.
Proof.
  apply (@validateSignature_accepts_invalid_issuedAt
           (fun key data : jsstring => key ++ lit ":" ++ data) (fun _ => NaN)
           1400000000000
           [(lit "issuedAt", lit "garbage");
            (lit "signature", lit "s3cr3t:issuedAt=garbage")]
           (lit "s3cr3t") (lit "issuedAt=garbage")); reflexivity.
Defined.

(* ================================================================== *)
(** * The API wrapper: the properties *)
(* ================================================================== *)

Section ObjectUpdates.

Context {V : Type}.

Lemma get_set_same (o : Lodash.object V) (k : jsstring) (v : V) :
  Lodash.get (Lodash.set o k v) k = Some v.
Proof.
  induction o as [|[k' v'] o IH]; simpl.
  - rewrite jsstring_eqb_refl; reflexivity.
  - destruct (jsstring_eqb k' k) eqn:E; simpl; rewrite E; auto.
Qed.

Lemma get_set_other (o : Lodash.object V) (k k' : jsstring) (v : V) :
  jsstring_eqb k k' = false ->
  Lodash.get (Lodash.set o k v) k' = Lodash.get o k'.
Proof.
  intros Hne. induction o as [|[k0 v0] o IH]; simpl.
  - rewrite Hne; reflexivity.
  - destruct (jsstring_eqb k0 k) eqn:E; simpl.
    + apply jsstring_eqb_eq in E; subst k0. rewrite Hne; reflexivity.
    + rewrite IH; reflexivity.
Qed.

End ObjectUpdates.

Lemma update_last {A} (f : A -> A) (w : list A) (r : A) :
  update (List.length w) f (w ++ [r]) = w ++ [f r].
Proof. induction w as [|x w IH]; simpl; [|rewrite IH]; reflexivity. Qed.

(** ** One call of [request] asks the transport for one request *)

Section Sending.

Variable request_throws : transport_check.

(** [request] throws what the transport throws, and then creates nothing;
    otherwise it leaves one request behind. *)
Lemma request_sending (this : Client) (method path : jsstring)
    (data : option jsstring) (options callback : arg) (w : World) :
  request request_throws this method path data options callback w =
  sending request_throws (sent_request this method path data options callback) w.
Proof.
  unfold request, sent_request, sending.
  destruct (normalize options callback) as [o cb].
  destruct (build_headers this data o) as [headers [b|]];
    unfold mbind, scheme_request, req_on_error, req_write, req_end, mret; simpl;
    destruct (request_throws (scheme this) headers (hostname this) method path);
    rewrite ?update_last; reflexivity.
Qed.

Lemma request_sends_one (this : Client) (method path : jsstring)
    (data : option jsstring) (options callback : arg) (w : World) :
  let r := sent_request this method path data options callback in
  request_throws (req_module r) (req_headers r) (req_hostname r)
                 (req_method r) (req_path r) = None ->
  request request_throws this method path data options callback w = (Normal tt, w ++ [r]).
Proof.
  cbv zeta. intros H. rewrite request_sending. unfold sending. rewrite H. reflexivity.
Qed.

End Sending.

(** With a transport that refuses a space in the path: a call for
    ["/networks/a b/"] throws and leaves no request, a call for
    ["/networks/ab/"] leaves one, and a notification for the network ["a b"]
    throws as well. *)
Lemma request_refused_examples :
  let this :=
    {| scheme := https; hostname := Some (lit "api.speakap.io");
       appId := Some (lit "id"); appSecret := Some (lit "secret");
       apiVersion := lit "1.1"; accessToken := Some (lit "id_secret") |} in
  let stringify := fun _ : jsval => Normal (Some (lit "{}")) in
  request unescaped_path this (lit "GET") (lit "/networks/a b/") None
          (ArgObject []) (ArgFunction 0) []
    = (Throw unescaped_characters, []) /\
  (exists r,
     request unescaped_path this (lit "GET") (lit "/networks/ab/") None
             (ArgObject []) (ArgFunction 0) [] = (Normal tt, [r])) /\
  sendNewScheduleNotification (post stringify (invoke unescaped_path stringify 1 this))
    (lit "a b") (lit "u1") (lit "42") Null (ArgFunction 0) []
    = (Throw unescaped_characters, []).
Proof.
  cbv zeta. split; [reflexivity|]. split; [eexists; reflexivity|]. reflexivity.
Qed.

Section Dispatch.

Variable request_throws : transport_check.
Variable JSON_stringify : jsval -> completion (option jsstring).

Lemma invoke_request (d : nat) (this : Client) :
  invoke request_throws JSON_stringify (S d) this (lit "request")
  = request request_throws this.
Proof. reflexivity. Qed.

Lemma invoke__request (d : nat) (this : Client) method path data options callback :
  invoke request_throws JSON_stringify (S d) this (lit "_request") method path data options callback
  = throw (not_a_function (lit "_request")).
Proof. reflexivity. Qed.

Lemma invoke__request_throws (depth : nat) (this : Client) method path data options callback w :
  exists e,
    invoke request_throws JSON_stringify depth this (lit "_request") method path data options callback w
    = (Throw e, w).
Proof. destruct depth; eexists; reflexivity. Qed.

(** [get], [delete] and [post] reach [request]. *)
Lemma get_delete_post_reach_request (d : nat) (this : Client)
    (path : jsstring) (data : jsval) (options callback : arg) (w : World) :
  get (invoke request_throws JSON_stringify (S d) this) path options callback w
    = request request_throws this (lit "GET") path None options callback w /\
  delete (invoke request_throws JSON_stringify (S d) this) path options callback w
    = request request_throws this (lit "DELETE") path None options callback w /\
  (forall body, JSON_stringify data = Normal body ->
     post JSON_stringify (invoke request_throws JSON_stringify (S d) this) path data options callback w
     = request request_throws this (lit "POST") path body options callback w).
Proof.
  repeat split. intros body Hb. unfold post, mbind, lift. rewrite Hb. reflexivity.
Qed.

(** C2 (fails on the code): [put] and [postAction] call [this._request],
    a member that [API.prototype] does not define.  Whatever the arguments
    and the room left on the stack, they throw and create no request; when
    [JSON.stringify] returns, what [put] throws is the [TypeError] of the
    missing member, and so it is for [postAction] without form fields. *)
Theorem put_and_postAction_send_nothing (depth : nat) (this : Client)
    (path : jsstring) (data : jsval) (fields : option (Lodash.object jsstring))
    (options callback : arg) (w : World) :
  (exists e,
     put JSON_stringify (invoke request_throws JSON_stringify depth this) path data options callback w
     = (Throw e, w)) /\
  (exists e,
     postAction (invoke request_throws JSON_stringify depth this) path fields options callback w
     = (Throw e, w)) /\
  (forall body, JSON_stringify data = Normal body ->
     put JSON_stringify (invoke request_throws JSON_stringify (S depth) this) path data options callback w
     = (Throw (not_a_function (lit "_request")), w)) /\
  postAction (invoke request_throws JSON_stringify (S depth) this) path None options callback w
    = (Throw (not_a_function (lit "_request")), w).
Proof.
  repeat split.
  - unfold put, mbind, lift. destruct (JSON_stringify data) as [body|e].
    + apply invoke__request_throws.
    + eexists; reflexivity.
  - unfold postAction, mbind, lift.
    destruct fields as [fields|]; [destruct (mapM formPair fields) as [parts|e]|];
      simpl; try (eexists; reflexivity);
      destruct (normalize options callback); apply invoke__request_throws.
  - intros body Hb. unfold put, mbind, lift. rewrite Hb. reflexivity.
  - unfold postAction, mbind, lift. simpl.
    destruct (normalize options callback). reflexivity.
Qed.

End Dispatch.

(** ** The constructor *)

Lemma API_cases (config : Config) (w : World) :
  let config_scheme := Lodash.get config (lit "scheme") in
  let appId := Lodash.get config (lit "appId") in
  let appSecret := Lodash.get config (lit "appSecret") in
  (config_scheme <> Some (lit "http") /\ config_scheme <> Some (lit "https") /\
   API config w = (Throw InvalidConfig, w)) \/
  ((config_scheme = Some (lit "http") \/ config_scheme = Some (lit "https")) /\
   exists m,
     API config w =
     (Normal {| scheme := m;
                hostname := Lodash.get config (lit "hostname");
                appId := appId;
                appSecret := appSecret;
                apiVersion := or_default (Lodash.get config (lit "apiVersion")) (lit "1.1");
                accessToken :=
                  if truthy appId && truthy appSecret
                  then Some (ToString appId ++ lit "_" ++ ToString appSecret)
                  else None |}, w)).
Proof.
  unfold API. cbv zeta.
  destruct (Lodash.get config (lit "scheme")) as [s|] eqn:Es.
  2:{ left. repeat split; discriminate. }
  unfold strict_neq.
  destruct (jsstring_eqb (lit "http") s) eqn:E1.
  { apply jsstring_eqb_eq in E1; subst s. right. split; auto.
    exists http. reflexivity. }
  destruct (jsstring_eqb (lit "https") s) eqn:E2.
  { apply jsstring_eqb_eq in E2; subst s. right. split; auto.
    exists https. reflexivity. }
  apply jsstring_eqb_neq in E1, E2. left. simpl.
  repeat split; congruence.
Qed.

Lemma derived_token_present (appId appSecret : option jsstring) (id secret : jsstring) :
  appId = Some id -> appSecret = Some secret -> id <> [] -> secret <> [] ->
  derived_token appId appSecret = Some (id ++ lit "_" ++ secret).
Proof.
  intros -> -> Hid Hsecret.
  destruct id; [congruence|]. destruct secret; [congruence|]. reflexivity.
Qed.

Lemma derived_token_absent (appId appSecret : option jsstring) :
  appId = None \/ appId = Some [] \/ appSecret = None \/ appSecret = Some [] ->
  derived_token appId appSecret = None.
Proof.
  unfold derived_token.
  intros [ -> | [ -> | [ -> | -> ] ] ]; simpl; auto; destruct (truthy _); reflexivity.
Qed.

(** C6 (as stated, fails): an [appId] that is present but empty.  The
    construction succeeds and derives no token. *)
Lemma API_empty_appId_derives_no_token :
  let config :=
    [(lit "scheme", lit "https"); (lit "appId", []);
     (lit "appSecret", lit "secret")] in
  Lodash.get config (lit "appId") = Some [] /\
  Lodash.get config (lit "appSecret") = Some (lit "secret") /\
  exists this, API config [] = (Normal this, []) /\ accessToken this = None.
Proof. repeat split. eexists; split; reflexivity. Qed.

(** C6 (amended): the construction fails with [InvalidConfig] exactly when
    [config.scheme] is neither ["http"] nor ["https"], and with nothing else;
    it creates no request, failing or not; and when it succeeds the token
    [appId + "_" + appSecret] is derived exactly when both [appId] and
    [appSecret] are present and not empty. *)
Theorem API_construction (config : Config) (w : World) :
  let config_scheme := Lodash.get config (lit "scheme") in
  let appId := Lodash.get config (lit "appId") in
  let appSecret := Lodash.get config (lit "appSecret") in
  snd (API config w) = w /\
  (fst (API config w) = Throw InvalidConfig <->
   config_scheme <> Some (lit "http") /\ config_scheme <> Some (lit "https")) /\
  (forall e, fst (API config w) = Throw e -> e = InvalidConfig) /\
  (forall this, fst (API config w) = Normal this ->
     (forall id secret,
        appId = Some id -> appSecret = Some secret -> id <> [] -> secret <> [] ->
        accessToken this = Some (id ++ lit "_" ++ secret)) /\
     (appId = None \/ appId = Some [] \/ appSecret = None \/ appSecret = Some [] ->
      accessToken this = None)).
Proof.
  cbv zeta.
  destruct (API_cases config w) as [(H1 & H2 & ->) | (H & m & ->)]; simpl.
  - repeat split; auto; try discriminate. congruence.
  - split; [reflexivity|]. split.
    { split; [discriminate|]. intros [Hn1 Hn2]. destruct H; contradiction. }
    split; [discriminate|].
    intros this [= <-]. simpl. split.
    + apply derived_token_present.
    + apply derived_token_absent.
Qed.

(** ** What [JSON.parse] returns *)

Section ParserInvariant.

Import JSON.

Ltac split_ifs H :=
  repeat match type of H with
         | context [if ?b then _ else _] => destruct b
         end.

Ltac close_case H :=
  try discriminate H;
  injection H as <- <-; simpl; split; auto; repeat constructor;
  unfold defined; try discriminate.

Lemma start_ok (c : N) (st : lexstate) (out : list token) :
  start c = Some (st, out) -> lexstate_ok st /\ Forall token_ok out.
Proof.
  unfold start. intros H. split_ifs H; close_case H.
Qed.

Lemma step_ok (st : lexstate) (c : N) (st' : lexstate) (out : list token) :
  lexstate_ok st -> step st c = Some (st', out) ->
  lexstate_ok st' /\ Forall token_ok out.
Proof.
  intros Hst H. destruct st as [|expected v|acc|acc|acc missing value|ph a]; simpl in H.
  - eapply start_ok; eauto.
  - destruct expected as [|x rest]; [discriminate|].
    destruct (N.eqb c x); [|discriminate].
    destruct rest; injection H as <- <-; simpl; split; auto.
  - split_ifs H; close_case H.
  - split_ifs H; close_case H.
  - destruct (hex_value c); [|discriminate].
    destruct missing as [|[|missing]]; close_case H.
  - destruct (num_step ph a c) as [[ph' a']|].
    + close_case H.
    + destruct (complete ph); [|discriminate].
      destruct (start c) as [[st0 out0]|] eqn:E; [|discriminate].
      apply start_ok in E. destruct E as [E1 E2].
      injection H as <- <-. split; auto.
      constructor; auto. unfold number_value; simpl; discriminate.
Qed.

Lemma lex_ok (text : jsstring) (st : lexstate) (toks : list token) :
  lexstate_ok st -> lex st text = Some toks -> Forall token_ok toks.
Proof.
  revert st toks; induction text as [|c text IH]; simpl; intros st toks Hst H.
  - destruct st; simpl in H; try discriminate.
    + injection H as <-; constructor.
    + destruct (complete ph); [|discriminate].
      injection H as <-. repeat constructor. discriminate.
  - destruct (step st c) as [[st' out]|] eqn:E; [|discriminate].
    apply (step_ok _ _ Hst) in E. destruct E as [E1 E2].
    destruct (lex st' text) as [toks'|] eqn:E'; [|discriminate].
    injection H as <-. apply Forall_app; split; auto.
    eapply IH; eauto.
Qed.

Lemma push_value_ok (v : jsval) (stack : list frame) :
  defined v -> mode_ok (fst (push_value v stack)).
Proof. destruct stack as [|[elems|props key] rest]; simpl; auto. Qed.

Lemma parse_step_ok (st st' : mode * list frame) (t : token) :
  token_ok t -> parse_step st t = Some st' -> mode_ok (fst st').
Proof.
  intros Ht H. destruct st as [m stack].
  destruct m as [[|]|[|]| | |v]; destruct t; simpl in H; try discriminate;
    try (destruct stack as [|[elems|props key] rest]; simpl in H; try discriminate);
    injection H as <-; simpl;
    first [ exact I | exact Ht | unfold defined; discriminate
          | apply push_value_ok; unfold defined; discriminate ].
Qed.

Lemma run_ok (toks : list token) (st st' : mode * list frame) :
  mode_ok (fst st) -> Forall token_ok toks -> run st toks = Some st' ->
  mode_ok (fst st').
Proof.
  revert st; induction toks as [|t toks IH]; simpl; intros st Hst Hall H.
  - injection H as <-; exact Hst.
  - inversion Hall as [|? ? Ht Hall']; subst.
    destruct (parse_step st t) as [st1|] eqn:E; [|discriminate].
    apply (IH st1); auto. eapply parse_step_ok; eauto.
Qed.

Lemma parse_defined (text : jsstring) (v : jsval) :
  parse text = Normal v -> defined v.
Proof.
  unfold parse. intros H.
  destruct (lex L_start text) as [toks|] eqn:El; [|discriminate].
  destruct (run (ExpectValue false, []) toks) as [[m stack]|] eqn:Er; [|discriminate].
  destruct m; try discriminate. injection H as ->.
  apply (lex_ok text L_start I) in El.
  exact (@run_ok toks (ExpectValue false, []) _ I El Er).
Qed.

End ParserInvariant.

Lemma parse_populated (text : jsstring) (v : jsval) :
  JSON.parse text = Normal v -> populated v = false -> v = Null.
Proof.
  intros H Hp. apply parse_defined in H.
  destruct v; try discriminate; auto. exfalso; apply H; reflexivity.
Qed.

(** ** The response handler *)

Lemma responseBody_concat (chunks : list jsstring) (body : jsstring) :
  fold_left (fun body chunk => body ++ chunk) chunks body = body ++ List.concat chunks.
Proof.
  revert body; induction chunks as [|c chunks IH]; simpl; intros body.
  - rewrite app_nil_r; reflexivity.
  - rewrite IH, app_assoc; reflexivity.
Qed.

Lemma response_end_classify (callback : arg) (statusCode : Z) (chunks : list jsstring) :
  response_end callback statusCode chunks =
  invoke_callback callback
    [fst (classify statusCode (List.concat chunks)); snd (classify statusCode (List.concat chunks))].
Proof.
  unfold response_end. rewrite responseBody_concat. simpl.
  destruct (classify statusCode (List.concat chunks)); reflexivity.
Qed.

(** The four outcomes of the [try ... catch]. *)
Lemma classify_cases (statusCode : Z) (responseBody : jsstring) :
  (statusCode = 204%Z -> classify statusCode responseBody = (Null, Bool true)) /\
  (statusCode <> 204%Z -> (200 <= statusCode < 300)%Z ->
   forall parsed, JSON.parse responseBody = Normal parsed ->
     classify statusCode responseBody = (Null, parsed)) /\
  (~ (200 <= statusCode < 300)%Z ->
   forall parsed, JSON.parse responseBody = Normal parsed ->
     classify statusCode responseBody = (parsed, Null)) /\
  (statusCode <> 204%Z ->
   forall e, JSON.parse responseBody = Throw e ->
     classify statusCode responseBody = (unexpected_reply responseBody, Null)).
Proof.
  unfold classify. repeat split.
  - intros ->. reflexivity.
  - intros H1 H2 parsed Hp.
    destruct (Z.eqb_spec statusCode 204); [contradiction|].
    destruct (Z.leb_spec 200 statusCode); [|lia].
    destruct (Z.ltb_spec statusCode 300); [|lia].
    simpl. rewrite Hp. reflexivity.
  - intros H parsed Hp.
    destruct (Z.eqb_spec statusCode 204); [lia|].
    destruct (Z.leb_spec 200 statusCode), (Z.ltb_spec statusCode 300);
      simpl; try lia; rewrite Hp; reflexivity.
  - intros H e Hp.
    destruct (Z.eqb_spec statusCode 204); [contradiction|].
    destruct (Z.leb 200 statusCode && Z.ltb statusCode 300);
      rewrite Hp; reflexivity.
Qed.

(** C7: how a completed response reaches the callback [f].  Status 204 gives
    [(null, true)] whatever the body holds, which is not parsed; another
    status from 200 to 299 gives [(null, parsed body)]; any other status
    gives [(parsed body, null)]; and when the body does not parse, on either
    path, the error is the object with code -1001, message "Unexpected Reply"
    and the body as it came as description. *)
Theorem response_classification (f : nat) (statusCode : Z) (chunks : list jsstring) :
  let responseBody := List.concat chunks in
  (statusCode = 204%Z ->
   response_end (ArgFunction f) statusCode chunks = Call f [Null; Bool true]) /\
  (statusCode <> 204%Z -> (200 <= statusCode < 300)%Z ->
   forall parsed, JSON.parse responseBody = Normal parsed ->
     response_end (ArgFunction f) statusCode chunks = Call f [Null; parsed]) /\
  (~ (200 <= statusCode < 300)%Z ->
   forall parsed, JSON.parse responseBody = Normal parsed ->
     response_end (ArgFunction f) statusCode chunks = Call f [parsed; Null]) /\
  (statusCode <> 204%Z ->
   forall e, JSON.parse responseBody = Throw e ->
     response_end (ArgFunction f) statusCode chunks =
     Call f [Obj [(lit "code", Int (-1001));
                  (lit "message", Str (lit "Unexpected Reply"));
                  (lit "description", Str responseBody)];
             Null]).
Proof.
  cbv zeta. rewrite response_end_classify.
  destruct (classify_cases statusCode (List.concat chunks)) as (C1 & C2 & C3 & C4).
  repeat split.
  - intros H. rewrite (C1 H). reflexivity.
  - intros H1 H2 parsed Hp. rewrite (C2 H1 H2 parsed Hp). reflexivity.
  - intros H parsed Hp. rewrite (C3 H parsed Hp). reflexivity.
  - intros H e Hp. rewrite (C4 H e Hp). reflexivity.
Qed.

Lemma response_classification_witness :
  response_end (ArgFunction 0) 404 [litq "{'code':1,"; litq "'message':'Not Found'}"]
  = Call 0 [Obj [(lit "code", Int 1); (lit "message", Str (lit "Not Found"))]; Null].
Proof.
  destruct (response_classification 0 404
              [litq "{'code':1,"; litq "'message':'Not Found'}"])
    as (_ & _ & Herror & _).
  apply Herror; [lia | reflexivity].
Defined.

(** The scenarios of the specification: 204 with any body, a 404 with a JSON
    error body, a 200 whose body is not JSON. *)
Lemma response_classification_examples :
  response_end (ArgFunction 0) 204 [lit "not parsed"] = Call 0 [Null; Bool true] /\
  response_end (ArgFunction 0) 404 [litq "{'code':1,"; litq "'message':'Not Found'}"]
    = Call 0 [Obj [(lit "code", Int 1); (lit "message", Str (lit "Not Found"))]; Null] /\
  response_end (ArgFunction 0) 200 [lit "not json"]
    = Call 0 [unexpected_reply (lit "not json"); Null].
Proof. repeat split. Qed.

(** ** The arguments of the callback *)

Lemma invoke_callback_Call (callback : arg) (args args' : list jsval) (f : nat) :
  invoke_callback callback args = Call f args' -> args' = args.
Proof.
  unfold invoke_callback.
  destruct (arg_truthy callback); [|discriminate].
  destruct callback; try discriminate. intros [= _ ->]. reflexivity.
Qed.

(** C8 (as stated, fails): a 200 response whose body is the JSON text
    [null].  The callback is called with [(null, null)]: neither argument is
    populated. *)
Lemma null_body_populates_neither_argument :
  response_end (ArgFunction 0) 200 [lit "null"] = Call 0 [Null; Null] /\
  populated Null = false.
Proof. split; reflexivity. Qed.

(** C8 (amended): whenever the callback is called, its two arguments are
    never both populated.  After a transport failure the error (code -1000,
    wrapping the transport error) is populated and the result is not.  After
    a response exactly one of the two is populated, on every path, as long as
    the body does not parse to [null]; and a response with another status
    from 200 to 299 whose body parses to [null] populates neither.  A body
    that parses to [false] populates the result. *)
Theorem callback_arguments_populated (callback : arg) (f : nat) (args : list jsval) :
  (forall error,
     request_error callback error = Call f args ->
     args = [request_failed error] /\
     populated (argument args 0) = true /\ populated (argument args 1) = false) /\
  (forall statusCode chunks,
     response_end callback statusCode chunks = Call f args ->
     (populated (argument args 0) && populated (argument args 1) = false) /\
     (statusCode = 204%Z \/ JSON.parse (List.concat chunks) <> Normal Null ->
      xorb (populated (argument args 0)) (populated (argument args 1)) = true) /\
     (statusCode <> 204%Z -> (200 <= statusCode < 300)%Z ->
      JSON.parse (List.concat chunks) = Normal Null ->
      populated (argument args 0) = false /\ populated (argument args 1) = false)).
Proof.
  split.
  - intros error H. apply invoke_callback_Call in H. subst args.
    repeat split.
  - intros statusCode chunks H.
    rewrite response_end_classify in H. apply invoke_callback_Call in H.
    subst args. unfold argument; simpl.
    destruct (classify_cases statusCode (List.concat chunks)) as (C1 & C2 & C3 & C4).
    destruct (Z.eq_dec statusCode 204) as [E|E].
    { rewrite (C1 E). simpl. split; [reflexivity|]. split; [reflexivity|].
      intros; contradiction. }
    destruct (JSON.parse (List.concat chunks)) as [parsed|e] eqn:Hp.
    2:{ rewrite (C4 E e eq_refl). simpl. split; [reflexivity|].
        split; [reflexivity|]. discriminate. }
    assert (Hnull : populated parsed = false -> parsed = Null)
      by (apply parse_populated with (text := List.concat chunks); exact Hp).
    assert (Hxor : Normal parsed <> Normal Null -> populated parsed = true).
    { intros Hn. destruct (populated parsed) eqn:P; auto.
      exfalso; apply Hn; rewrite Hnull; auto. }
    assert (Hcases : (200 <= statusCode < 300)%Z \/ ~ (200 <= statusCode < 300)%Z) by lia.
    destruct Hcases as [R|R].
    + rewrite (C2 E R parsed eq_refl). simpl. split; [reflexivity|]. split.
      * intros [?|Hn]; [contradiction | auto].
      * intros _ _ [= ->]. split; reflexivity.
    + rewrite (C3 R parsed eq_refl). simpl. split; [apply andb_false_r|]. split.
      * intros [?|Hn]; [contradiction|]. rewrite Hxor; auto.
      * intros _ R'. contradiction.
Qed.

(** ** The headers of a request *)

Section Headers.

Variable this : Client.
Variable data : option jsstring.
Variable options : Lodash.object jsstring.

Lemma header_Accept :
  Lodash.get (fst (build_headers this data options)) (lit "Accept") =
  Some (Str (or_default (Lodash.get options (lit "accept"))
                        (default_accept (apiVersion this)))).
Proof.
  unfold build_headers.
  destruct (truthy (or_else _ _)), (truthy data); reflexivity.
Qed.

Lemma header_Authorization :
  let accessToken :=
    or_else (Lodash.get options (lit "accessToken")) (accessToken this) in
  Lodash.get (fst (build_headers this data options)) (lit "Authorization") =
  if truthy accessToken
  then Some (Str (lit "Bearer " ++ ToString accessToken))
  else None.
Proof.
  unfold build_headers.
  destruct (truthy (or_else _ _)), (truthy data); reflexivity.
Qed.

Lemma header_Content_type :
  Lodash.get (fst (build_headers this data options)) (lit "Content-type") =
  if truthy data
  then Some (Str (or_default (Lodash.get options (lit "contentType"))
                             (lit "application/json")
                  ++ lit "; charset=utf-8"))
  else None.
Proof.
  unfold build_headers.
  destruct (truthy (or_else _ _)), (truthy data); reflexivity.
Qed.

Lemma header_Content_length :
  Lodash.get (fst (build_headers this data options)) (lit "Content-length") =
  if truthy data
  then Some (Int (Z.of_nat (List.length (Buffer_from (ToString data)))))
  else None.
Proof.
  unfold build_headers.
  destruct (truthy (or_else _ _)), (truthy data); reflexivity.
Qed.

End Headers.

Lemma sent_request_headers (this : Client) (method path : jsstring)
    (data : option jsstring) (options callback : arg) :
  req_headers (sent_request this method path data options callback) =
  fst (build_headers this data (fst (normalize options callback))).
Proof.
  unfold sent_request. destruct (normalize options callback) as [o cb].
  simpl. destruct (build_headers this data o). reflexivity.
Qed.

Lemma sent_request_callback (this : Client) (method path : jsstring)
    (data : option jsstring) (options callback : arg) :
  req_response_callback (sent_request this method path data options callback)
    = snd (normalize options callback) /\
  req_error_callback (sent_request this method path data options callback)
    = Some (snd (normalize options callback)) /\
  req_ended (sent_request this method path data options callback) = true.
Proof.
  unfold sent_request. destruct (normalize options callback) as [o cb].
  simpl. destruct (build_headers this data o). repeat split.
Qed.

Lemma sent_request_fields (this : Client) (method path : jsstring)
    (data : option jsstring) (options callback : arg) :
  let r := sent_request this method path data options callback in
  req_module r = scheme this /\ req_hostname r = hostname this /\
  req_method r = method /\ req_path r = path.
Proof.
  unfold sent_request. destruct (normalize options callback) as [o cb].
  destruct (build_headers this data o). repeat split.
Qed.

Lemma sent_request_written (this : Client) (method path : jsstring)
    (data : option jsstring) (options callback : arg) :
  req_written (sent_request this method path data options callback)
  = if truthy data then [Buffer_from (ToString data)] else [].
Proof.
  unfold sent_request. destruct (normalize options callback) as [o cb].
  unfold build_headers.
  destruct (truthy (or_else _ _)), (truthy data); reflexivity.
Qed.

(** A client built by the constructor has a token that is not empty, or
    none. *)
Lemma constructed_token (config : Config) (w w' : World) (this : Client) :
  API config w = (Normal this, w') ->
  accessToken this = None \/ truthy (accessToken this) = true.
Proof.
  intros H.
  destruct (API_cases config w) as [(_ & _ & E) | (_ & m & E)];
    rewrite E in H; [discriminate|].
  injection H as <- _. simpl.
  destruct (truthy (Lodash.get config (lit "appId"))
            && truthy (Lodash.get config (lit "appSecret"))) eqn:T; auto.
  right. apply andb_true_iff in T. destruct T as [T _].
  destruct (Lodash.get config (lit "appId")) as [[|c id]|]; try discriminate.
  reflexivity.
Qed.

(** C9 (as stated, fails): a per-call [accessToken] that is given but empty.
    The header carries the token of the client, not the one given. *)
Lemma empty_per_call_token_is_passed_over :
  let config :=
    [(lit "scheme", lit "https"); (lit "appId", lit "id");
     (lit "appSecret", lit "secret")] in
  let options := ArgObject [(lit "accessToken", [])] in
  Lodash.get (properties options) (lit "accessToken") = Some [] /\
  exists this r,
    API config [] = (Normal this, []) /\
    request unescaped_path this (lit "GET") (lit "/") None options ArgUndefined []
      = (Normal tt, [r]) /\
    Lodash.get (req_headers r) (lit "Authorization")
      = Some (Str (lit "Bearer id_secret")).
Proof. split; [reflexivity|]. do 2 eexists. repeat split. Qed.

(** C9 (amended): a call of [request] on a constructed client asks the
    transport for one request [r]; whatever the transport, the call throws
    what the transport throws and adds no request, or leaves [r], ended,
    after the requests there were.  The [Authorization] header handed to the
    transport is ["Bearer "] followed by the per-call [options.accessToken]
    when one is given and is not empty, and otherwise by the token of the
    client; when there is neither a non-empty per-call token nor a token of
    the client, the transport is handed no [Authorization] header. *)
Theorem request_authorization_header (request_throws : transport_check)
    (config : Config) (w0 : World) (this : Client)
    (method path : jsstring) (data : option jsstring) (options callback : arg)
    (w : World) :
  API config w0 = (Normal this, w0) ->
  exists r,
    request request_throws this method path data options callback w
      = sending request_throws r w /\
    req_method r = method /\ req_path r = path /\ req_ended r = true /\
    let per_call :=
      Lodash.get (fst (normalize options callback)) (lit "accessToken") in
    (forall token, per_call = Some token -> token <> [] ->
       Lodash.get (req_headers r) (lit "Authorization")
         = Some (Str (lit "Bearer " ++ token))) /\
    (per_call = None \/ per_call = Some [] ->
     forall token, accessToken this = Some token ->
       Lodash.get (req_headers r) (lit "Authorization")
         = Some (Str (lit "Bearer " ++ token))) /\
    (per_call = None \/ per_call = Some [] ->
     accessToken this = None ->
     Lodash.get (req_headers r) (lit "Authorization") = None).
Proof.
  intros Hthis.
  exists (sent_request this method path data options callback).
  split; [apply request_sending|].
  destruct (sent_request_fields this method path data options callback)
    as (_ & _ & Hm & Hp).
  split; [exact Hm|]. split; [exact Hp|].
  split; [apply sent_request_callback|].
  cbv zeta. rewrite sent_request_headers, header_Authorization. cbv zeta.
  set (per_call := Lodash.get (fst (normalize options callback)) (lit "accessToken")).
  split; [|split].
  - intros token -> Hne. destruct token; [congruence|]. reflexivity.
  - intros Hper token Htok.
    destruct (constructed_token _ _ Hthis) as [Hn|Ht]; [congruence|].
    assert (E : or_else per_call (accessToken this) = accessToken this)
      by (destruct Hper as [->| ->]; reflexivity).
    rewrite E, Ht, Htok. reflexivity.
  - intros Hper Hnone.
    assert (E : or_else per_call (accessToken this) = accessToken this)
      by (destruct Hper as [->| ->]; reflexivity).
    rewrite E, Hnone. reflexivity.
Qed.

Lemma request_authorization_header_witness :
  let this :=
    {| scheme := https; hostname := Some (lit "api.speakap.io");
       appId := Some (lit "id"); appSecret := Some (lit "secret");
       apiVersion := lit "1.1"; accessToken := Some (lit "id_secret") |} in
  exists r,
    request unescaped_path this (lit "GET") (lit "/networks/42/") None
            (ArgObject [(lit "accessToken", lit "token")]) (ArgFunction 0) []
      = (Normal tt, [r]) /\
    Lodash.get (req_headers r) (lit "Authorization")
      = Some (Str (lit "Bearer token")).
Proof.
  cbv zeta.
  destruct (@request_authorization_header unescaped_path
              [(lit "scheme", lit "https"); (lit "hostname", lit "api.speakap.io");
               (lit "appId", lit "id"); (lit "appSecret", lit "secret")]
              []
              {| scheme := https; hostname := Some (lit "api.speakap.io");
                 appId := Some (lit "id"); appSecret := Some (lit "secret");
                 apiVersion := lit "1.1"; accessToken := Some (lit "id_secret") |}
              (lit "GET") (lit "/networks/42/") None
              (ArgObject [(lit "accessToken", lit "token")]) (ArgFunction 0) []
              eq_refl)
    as (r & Hr & _ & Hpath & _ & Hgiven & _).
  exists r. split.
  - rewrite Hr. unfold sending, unescaped_path. rewrite Hpath. reflexivity.
  - apply Hgiven; [reflexivity | discriminate].
Defined.

(** ** Options that are not an object *)

(** C10: when [options] is omitted, is a function or is any other value that
    is not an object, the first lines of [request] and of [postAction] make
    it the callback and put an empty object in its place.  The call then
    runs as the call with [{}] for options and that value for callback,
    whatever the transport makes of it.  [postAction] passes on its own
    default, the form content type, alone; the request [r] that [request]
    asks the transport for, and leaves behind unless the transport throws,
    has that value for callback and carries the defaults: the [Accept]
    header of the API version, the token of the client, the JSON content type
    when there is a body. *)
Theorem options_not_an_object_are_replaced (request_throws : transport_check)
    (this_call : jsstring -> member) (this : Client) (method path : jsstring)
    (data : option jsstring) (fields : option (Lodash.object jsstring))
    (options callback : arg) (w : World) :
  isObject options = false \/ isFunction options = true ->
  normalize options callback = ([], options) /\
  request request_throws this method path data options callback w
    = request request_throws this method path data (ArgObject []) options w /\
  postAction this_call path fields options callback w
    = postAction this_call path fields (ArgObject []) options w /\
  postAction this_call path None options callback w
    = this_call (lit "_request") (lit "POST") path None
        (ArgObject [(lit "contentType", lit "application/x-www-form-urlencoded")])
        options w /\
  exists r,
    request request_throws this method path data options callback w
      = sending request_throws r w /\
    req_method r = method /\ req_path r = path /\
    req_response_callback r = options /\
    req_error_callback r = Some options /\
    Lodash.get (req_headers r) (lit "Accept")
      = Some (Str (lit "application/vnd.speakap.api-v" ++ apiVersion this ++ lit "+json")) /\
    Lodash.get (req_headers r) (lit "Authorization")
      = (if truthy (accessToken this)
         then Some (Str (lit "Bearer " ++ ToString (accessToken this)))
         else None) /\
    Lodash.get (req_headers r) (lit "Content-type")
      = (if truthy data
         then Some (Str (lit "application/json; charset=utf-8"))
         else None).
Proof.
  intros Hrep.
  assert (Hn : normalize options callback = ([], options)).
  { unfold normalize. destruct Hrep as [-> | ->]; simpl; auto.
    rewrite orb_true_r; reflexivity. }
  split; [exact Hn|].
  split; [unfold request; rewrite Hn; reflexivity|].
  split; [unfold postAction; rewrite Hn; reflexivity|].
  split; [unfold postAction, mbind, lift; rewrite Hn; reflexivity|].
  exists (sent_request this method path data options callback).
  split; [apply request_sending|].
  destruct (sent_request_fields this method path data options callback)
    as (_ & _ & Hm & Hp).
  split; [exact Hm|]. split; [exact Hp|].
  destruct (sent_request_callback this method path data options callback)
    as (Hc1 & Hc2 & _).
  rewrite Hc1, Hc2, sent_request_headers, Hn. simpl.
  rewrite header_Accept, header_Authorization, header_Content_type.
  repeat split.
Qed.

Lemma options_not_an_object_are_replaced_witness :
  let this :=
    {| scheme := https; hostname := Some (lit "api.speakap.io");
       appId := Some (lit "id"); appSecret := Some (lit "secret");
       apiVersion := lit "1.1"; accessToken := Some (lit "id_secret") |} in
  request unescaped_path this (lit "GET") (lit "/") None (ArgFunction 7) ArgUndefined []
  = request unescaped_path this (lit "GET") (lit "/") None (ArgObject []) (ArgFunction 7) [].
Proof.
  cbv zeta.
  apply (@options_not_an_object_are_replaced unescaped_path
           (fun _ _ _ _ _ _ => mret tt)
           {| scheme := https; hostname := Some (lit "api.speakap.io");
              appId := Some (lit "id"); appSecret := Some (lit "secret");
              apiVersion := lit "1.1"; accessToken := Some (lit "id_secret") |}
           (lit "GET") (lit "/") None None (ArgFunction 7) ArgUndefined []).
  right; reflexivity.
Defined.

(* ================================================================== *)
(** * Further properties of the signed-request helpers *)
(* ================================================================== *)

(** ** What [encodeURIComponent] and [percentEncode] produce *)

(** Induction along the cases of [encodeURIComponent]: an unreserved code
    unit, a surrogate pair, any other code unit. *)
Lemma encodeURIComponent_cases (P : jsstring -> jsstring -> Prop) :
  P [] [] ->
  (forall c rest r,
     uriUnreserved c = true ->
     encodeURIComponent rest = Normal r -> P rest r -> P (c :: rest) (c :: r)) ->
  (forall c d rest r,
     uriUnreserved c = false -> is_high_surrogate c = true ->
     is_low_surrogate d = true ->
     encodeURIComponent rest = Normal r -> P rest r ->
     P (c :: d :: rest) (percent_octets (pair_code_point c d) ++ r)) ->
  (forall c rest r,
     uriUnreserved c = false ->
     encodeURIComponent rest = Normal r -> P rest r ->
     P (c :: rest) (percent_octets c ++ r)) ->
  forall s e, encodeURIComponent s = Normal e -> P s e.
Proof.
  intros Hnil Hunres Hpair Hother s.
  assert (H : forall n s, (List.length s <= n)%nat ->
                forall e, encodeURIComponent s = Normal e -> P s e).
  { induction n as [|n IH]; intros [|c rest] Hlen e He; simpl in Hlen;
      try lia; try (injection He as <-; exact Hnil).
    simpl in He.
    destruct (uriUnreserved c) eqn:Eu.
    - destruct (encodeURIComponent rest) as [r|] eqn:Er; [|discriminate].
      injection He as <-. apply Hunres; auto. apply IH; auto; lia.
    - destruct (is_low_surrogate c); [discriminate|].
      destruct (is_high_surrogate c) eqn:Eh.
      + destruct rest as [|d rest']; [discriminate|].
        destruct (is_low_surrogate d) eqn:El; [|discriminate].
        destruct (encodeURIComponent rest') as [r|] eqn:Er; [|discriminate].
        injection He as <-. apply Hpair; auto. apply IH; auto. simpl in Hlen; lia.
      + destruct (encodeURIComponent rest) as [r|] eqn:Er; [|discriminate].
        injection He as <-. apply Hother; auto. apply IH; auto; lia. }
  intros e He. apply (H (List.length s) s (le_n _) e He).
Qed.

Lemma unreserved_not_delimiter (c : N) :
  uriUnreserved c = true -> delimiter c = false.
Proof.
  intros H. unfold delimiter. rewrite H. simpl.
  rewrite andb_false_r. reflexivity.
Qed.

Lemma digit_unreserved (c : N) :
  (48 <= c <= 57)%N -> uriUnreserved c = true.
Proof.
  intros H. unfold uriUnreserved, in_range.
  assert (E : N.leb 48 c && N.leb c 57 = true).
  { apply andb_true_iff; split; apply N.leb_le; lia. }
  rewrite E, orb_true_r. reflexivity.
Qed.

Lemma hex_digit_not_delimiter (n : N) : delimiter (hex_digit n) = false.
Proof.
  unfold hex_digit. destruct (N.ltb_spec n 10).
  - apply unreserved_not_delimiter, digit_unreserved. lia.
  - unfold delimiter.
    assert (E : N.ltb (55 + n) 65 = false) by (apply N.ltb_ge; lia).
    rewrite E. reflexivity.
Qed.

Section EncodedAlphabet.

(** A property of the code units [encodeURIComponent] can write: the
    unreserved ones, the percent sign and the hexadecimal digits. *)
Variable P : N -> Prop.
Hypothesis P_unreserved : forall c, uriUnreserved c = true -> P c.
Hypothesis P_percent : P 37.
Hypothesis P_hex : forall n, P (hex_digit n).

Lemma percent_octets_Forall (cp : N) : Forall P (percent_octets cp).
Proof.
  unfold percent_octets. apply Forall_flat_map, Forall_forall.
  intros b _. unfold percent_octet. repeat constructor; auto.
Qed.

Lemma encodeURIComponent_Forall (s e : jsstring) :
  encodeURIComponent s = Normal e -> Forall P e.
Proof.
  apply (encodeURIComponent_cases (fun _ e => Forall P e)).
  - constructor.
  - intros c rest r Hc _ IH. constructor; auto.
  - intros c d rest r _ _ _ _ IH. apply Forall_app; split; auto.
    apply percent_octets_Forall.
  - intros c rest r _ _ IH. apply Forall_app; split; auto.
    apply percent_octets_Forall.
Qed.

End EncodedAlphabet.

Lemma replace_unfold (pat rep s : jsstring) :
  replace pat rep s =
  if starts_with pat s then rep ++ skipn (List.length pat) s
  else match s with
       | [] => []
       | c :: s' => c :: replace pat rep s'
       end.
Proof. destruct s; reflexivity. Qed.

Lemma Forall_skipn_list {A} (P : A -> Prop) (n : nat) (l : list A) :
  Forall P l -> Forall P (skipn n l).
Proof.
  intros H. rewrite <- (firstn_skipn n l) in H.
  apply Forall_app in H. tauto.
Qed.

Lemma replace_Forall (P : N -> Prop) (pat rep s : jsstring) :
  Forall P rep -> Forall P s -> Forall P (replace pat rep s).
Proof.
  intros Hrep. induction s as [|c s IH]; intros Hs; rewrite replace_unfold.
  - destruct (starts_with pat []); [|constructor].
    apply Forall_app; split; auto. apply Forall_skipn_list; constructor.
  - destruct (starts_with pat (c :: s)).
    + apply Forall_app; split; auto. apply Forall_skipn_list; auto.
    + inversion Hs; subst. constructor; auto.
Qed.

Lemma percentEncode_Forall (P : N -> Prop) (str encoded : jsstring) :
  (forall c, uriUnreserved c = true -> P c) -> P 37%N ->
  (forall n, P (hex_digit n)) ->
  percentEncode str = Normal encoded -> Forall P encoded.
Proof.
  intros Hu Hp Hh. unfold percentEncode. intros H.
  destruct (encodeURIComponent str) as [e|] eqn:E; [|discriminate].
  injection H as <-.
  apply (encodeURIComponent_Forall P Hu Hp Hh) in E.
  repeat (apply replace_Forall;
          [repeat constructor;
           first [exact Hp | exact (Hh 1%N) | exact (Hh 2%N) | exact (Hh 7%N)
                 | exact (Hh 8%N) | exact (Hh 9%N) | exact (Hh 10%N)]|]).
  exact E.
Qed.

(** X1: the result of [percentEncode] holds no delimiter: no ampersand, no
    equals sign, no space, no plus sign, nothing below the letters but
    digits, the percent sign and unreserved marks. *)
Theorem percentEncode_output_has_no_delimiter (str encoded : jsstring) :
  percentEncode str = Normal encoded ->
  Forall (fun c => delimiter c = false) encoded /\
  ~ In 38%N encoded /\ ~ In 61%N encoded /\ ~ In 32%N encoded /\ ~ In 43%N encoded.
Proof.
  intros H.
  assert (Hall : Forall (fun c => delimiter c = false) encoded).
  { apply (percentEncode_Forall (fun c => delimiter c = false)) with (str := str);
      auto using unreserved_not_delimiter, hex_digit_not_delimiter. }
  split; [exact Hall|].
  rewrite Forall_forall in Hall.
  repeat split; intros Hin; apply Hall in Hin; discriminate Hin.
Qed.

Lemma percentEncode_output_has_no_delimiter_witness :
  percentEncode (lit "a=1&b=x y") = Normal (lit "a%3D1%26b%3Dx%20y") /\
  Forall (fun c => delimiter c = false) (lit "a%3D1%26b%3Dx%20y").
Proof.
  split; [reflexivity|].
  apply (@percentEncode_output_has_no_delimiter (lit "a=1&b=x y")).
  reflexivity.
Defined.

Lemma percentEncode_no_delimiter (str encoded : jsstring) :
  percentEncode str = Normal encoded ->
  Forall (fun c => delimiter c = false) encoded.
Proof.
  apply (percentEncode_Forall (fun c => delimiter c = false));
    auto using unreserved_not_delimiter, hex_digit_not_delimiter.
Qed.

(** ** The shape of the canonical string *)

Lemma occurrences_app (c : N) (a b : jsstring) :
  occurrences c (a ++ b) = (occurrences c a + occurrences c b)%nat.
Proof. apply count_occ_app. Qed.

Lemma occurrences_cons (c x : N) (s : jsstring) :
  occurrences c (x :: s)
  = ((if N.eqb x c then 1 else 0) + occurrences c s)%nat.
Proof.
  unfold occurrences. simpl.
  destruct (N.eq_dec x c) as [->|Hne].
  - rewrite N.eqb_refl; reflexivity.
  - apply N.eqb_neq in Hne. rewrite Hne; reflexivity.
Qed.

Lemma occurrences_delimiter (d : N) (s : jsstring) :
  Forall (fun c => delimiter c = false) s -> delimiter d = true ->
  occurrences d s = 0%nat.
Proof.
  intros Hs Hd. unfold occurrences. apply count_occ_not_In.
  intros Hin. rewrite Forall_forall in Hs. rewrite (Hs d Hin) in Hd. discriminate.
Qed.

Lemma encodePair_separators (params : ParameterSet) (key pair : jsstring) :
  encodePair params key = Normal pair ->
  occurrences 61 pair = 1%nat /\ occurrences 38 pair = 0%nat.
Proof.
  unfold encodePair. intros H.
  destruct (percentEncode key) as [k|] eqn:Ek; [|discriminate].
  destruct (percentEncode (ToString _)) as [v|] eqn:Ev; [|discriminate].
  injection H as <-.
  apply percentEncode_no_delimiter in Ek, Ev.
  change (k ++ lit "=" ++ v) with (k ++ 61%N :: v).
  rewrite !occurrences_app, !occurrences_cons.
  rewrite (@occurrences_delimiter 61 k Ek eq_refl), (@occurrences_delimiter 61 v Ev eq_refl).
  rewrite (@occurrences_delimiter 38 k Ek eq_refl), (@occurrences_delimiter 38 v Ev eq_refl).
  split; reflexivity.
Qed.

Lemma mapM_length {A B} (f : A -> completion B) (xs : list A) (ys : list B) :
  mapM f xs = Normal ys -> List.length ys = List.length xs.
Proof.
  revert ys; induction xs as [|x xs IH]; simpl; intros ys H.
  - injection H as <-; reflexivity.
  - destruct (f x); [|discriminate]. simpl in H.
    destruct (mapM f xs) as [ys'|]; [|discriminate].
    injection H as <-. simpl. rewrite (IH ys'); reflexivity.
Qed.

Lemma join_separators (parts : list jsstring) :
  Forall (fun p => occurrences 61 p = 1%nat /\ occurrences 38 p = 0%nat) parts ->
  occurrences 61 (join (lit "&") parts) = List.length parts /\
  occurrences 38 (join (lit "&") parts) = pred (List.length parts).
Proof.
  change (lit "&") with [38%N].
  induction parts as [|p parts IH]; intros H; [split; reflexivity|].
  inversion H as [|? ? [Hp1 Hp2] Hrest]; subst.
  destruct parts as [|p' parts]; [simpl; auto|].
  destruct (IH Hrest) as [IH1 IH2].
  change (join [38%N] (p :: p' :: parts))
    with (p ++ [38%N] ++ join [38%N] (p' :: parts)).
  rewrite !occurrences_app, Hp1, Hp2, IH1, IH2. simpl. split; reflexivity.
Qed.

Lemma without_sorted_length (keys : list jsstring) (x : jsstring) :
  List.length (Lodash.without (sort keys) x) = List.length (Lodash.without keys x).
Proof.
  rewrite <- sort_without. symmetry. apply Permutation_length, sort_perm.
Qed.

(** X2: the string that [validateSignature] signs holds one equals sign for
    each key of the parameter set other than [signature], and ampersands only
    between the pairs: no key and no value can add a pair of its own. *)
Theorem queryString_separators (params : ParameterSet) (canonical : jsstring) :
  queryString params = Normal canonical ->
  let pairs := List.length (Lodash.without (Lodash.keys params) (lit "signature")) in
  occurrences 61 canonical = pairs /\
  occurrences 38 canonical = pred pairs.
Proof.
  unfold queryString. cbv zeta. intros H.
  destruct (mapM _ _) as [parts|] eqn:E; [|discriminate].
  injection H as <-.
  rewrite <- without_sorted_length, <- (mapM_length _ _ E).
  apply join_separators.
  eapply mapM_Forall; [|exact E].
  intros key pair. apply encodePair_separators.
Qed.

Lemma queryString_separators_witness :
  let params :=
    [(lit "b", lit "x&y=z"); (lit "signature", lit "s"); (lit "a", lit "1")] in
  queryString params = Normal (lit "a=1&b=x%26y%3Dz") /\
  occurrences 61 (lit "a=1&b=x%26y%3Dz") = 2%nat.
Proof.
  split; [reflexivity|].
  apply (@queryString_separators
           [(lit "b", lit "x&y=z"); (lit "signature", lit "s"); (lit "a", lit "1")]
           (lit "a=1&b=x%26y%3Dz")).
  reflexivity.
Defined.

(** X3: the string [signedRequest] returns holds one pair more than the
    canonical string, the [signature] pair: one equals sign for each key
    other than [signature] and one for the signature, and an ampersand
    before each pair but the first. *)
Theorem signedRequest_separators (params : ParameterSet) (signed : jsstring) :
  signedRequest params = Normal signed ->
  let pairs := List.length (Lodash.without (Lodash.keys params) (lit "signature")) in
  occurrences 61 signed = S pairs /\
  occurrences 38 signed = pairs.
Proof.
  rewrite signedRequest_encodePairs. unfold encodePairs. cbv zeta. intros H.
  destruct (mapM _ _) as [parts|] eqn:E; [|discriminate].
  injection H as <-.
  assert (Hlen : List.length parts
                 = S (List.length (Lodash.without (Lodash.keys params) (lit "signature")))).
  { rewrite (mapM_length _ _ E), length_app, without_sorted_length. simpl. lia. }
  rewrite <- Hlen.
  destruct (join_separators (parts := parts)) as [H1 H2].
  { eapply mapM_Forall; [|exact E]. intros key pair. apply encodePair_separators. }
  rewrite H1, H2, Hlen. split; reflexivity.
Qed.

Lemma signedRequest_separators_witness :
  let params := [(lit "b", lit "x&y"); (lit "signature", lit "s="); (lit "a", lit "1")] in
  signedRequest params = Normal (lit "a=1&b=x%26y&signature=s%3D") /\
  occurrences 38 (lit "a=1&b=x%26y&signature=s%3D") = 2%nat.
Proof.
  split; [reflexivity|].
  apply (@signedRequest_separators
           [(lit "b", lit "x&y"); (lit "signature", lit "s="); (lit "a", lit "1")]
           (lit "a=1&b=x%26y&signature=s%3D")).
  reflexivity.
Defined.

(** ** The signature entry and the order of insertion *)

Lemma jsstring_eqb_sym (a b : jsstring) : jsstring_eqb a b = jsstring_eqb b a.
Proof.
  destruct (jsstring_eqb a b) eqn:E.
  - apply jsstring_eqb_eq in E; subst. symmetry; apply jsstring_eqb_refl.
  - symmetry. apply jsstring_eqb_neq. apply jsstring_eqb_neq in E. congruence.
Qed.

Lemma without_keys_set {V} (o : Lodash.object V) (k : jsstring) (v : V) :
  Lodash.without (Lodash.keys (Lodash.set o k v)) k
  = Lodash.without (Lodash.keys o) k.
Proof.
  unfold Lodash.without, Lodash.keys.
  induction o as [|[k0 w] o IH]; simpl.
  - rewrite jsstring_eqb_refl; reflexivity.
  - destruct (jsstring_eqb k0 k) eqn:E; simpl; rewrite E; simpl; auto.
    rewrite IH; reflexivity.
Qed.

Lemma without_In (keys : list jsstring) (x key : jsstring) :
  In key (Lodash.without keys x) -> jsstring_eqb x key = false.
Proof.
  unfold Lodash.without. intros H. apply filter_In in H. destruct H as [_ H].
  rewrite jsstring_eqb_sym. apply negb_true_iff, H.
Qed.

Lemma queryString_set_signature (params : ParameterSet) (signature : jsstring) :
  queryString (Lodash.set params (lit "signature") signature) = queryString params.
Proof.
  rewrite !queryString_encodePairs.
  rewrite <- !sort_without, without_keys_set.
  unfold encodePairs.
  rewrite (mapM_ext (encodePair (Lodash.set params (lit "signature") signature))
                    (encodePair params)); auto.
  intros key Hin. unfold encodePair. rewrite get_set_other; auto.
  apply without_In with (keys := sort (Lodash.keys params)).
  rewrite <- sort_without. exact Hin.
Qed.

(** X4: the [signature] entry is outside what is signed: setting it, to any
    value, leaves the canonical string as it was.  So a parameter set whose
    [signature] is set to the hash of its canonical string verifies: at any
    time when its [issuedAt] is not a valid date, up to 60000 ms after
    [issuedAt] when it is, and it is expired afterwards. *)
Theorem signed_parameters_verify
    (hmac_sha256_base64 : jsstring -> jsstring -> jsstring)
    (Date_parse : jsstring -> timevalue)
    (now : Z) (params : ParameterSet) (appSecret : jsstring) :
  (forall signature,
     queryString (Lodash.set params (lit "signature") signature)
     = queryString params) /\
  (forall canonical,
     queryString params = Normal canonical ->
     let signed :=
       Lodash.set params (lit "signature") (hmac_sha256_base64 appSecret canonical) in
     match getTime Date_parse (Lodash.get params (lit "issuedAt")) with
     | NaN =>
         validateSignature hmac_sha256_base64 Date_parse now signed appSecret
         = Normal tt
     | Time issuedAt =>
         ((now <= issuedAt + 60000)%Z ->
          validateSignature hmac_sha256_base64 Date_parse now signed appSecret
          = Normal tt) /\
         ((issuedAt + 60000 < now)%Z ->
          validateSignature hmac_sha256_base64 Date_parse now signed appSecret
          = Throw (Error (lit "Expired signature")))
     end).
Proof.
  split; [apply queryString_set_signature|].
  intros canonical Hq. cbv zeta. unfold validateSignature.
  rewrite queryString_set_signature, Hq. simpl.
  rewrite get_set_same. cbn [strict_neq]. rewrite jsstring_eqb_refl.
  cbn [negb]. rewrite get_set_other by reflexivity.
  destruct (getTime Date_parse _) as [|issuedAt]; simpl; [reflexivity|].
  unfold SIGNATURE_WINDOW_SIZE.
  destruct (Z.ltb_spec (issuedAt + 60 * 1000) now); split; intros; auto; lia.
Qed.

Lemma queryString_permutation (P Q : ParameterSet) :
  Lodash.well_formed P -> Permutation P Q -> queryString Q = queryString P.
Proof.
  intros Hwf HP.
  rewrite !queryString_encodePairs, (sorted_keys_permutation HP).
  apply encodePairs_permutation; auto.
Qed.

(** X5: what [validateSignature] decides, and what [signedRequest] returns,
    does not depend on the order in which the entries of the parameter set
    were inserted, whether or not it holds a [signature]. *)
Theorem validateSignature_order_independent
    (hmac_sha256_base64 : jsstring -> jsstring -> jsstring)
    (Date_parse : jsstring -> timevalue)
    (now : Z) (P Q : ParameterSet) (appSecret : jsstring) :
  Lodash.well_formed P -> Permutation P Q ->
  validateSignature hmac_sha256_base64 Date_parse now Q appSecret
    = validateSignature hmac_sha256_base64 Date_parse now P appSecret /\
  signedRequest Q = signedRequest P.
Proof.
  intros Hwf HP. split.
  - unfold validateSignature.
    rewrite (queryString_permutation Hwf HP).
    rewrite <- !(get_permutation _ Hwf HP). reflexivity.
  - rewrite !signedRequest_encodePairs, (sorted_keys_permutation HP).
    apply encodePairs_permutation; auto.
Qed.

Lemma validateSignature_order_independent_witness :
  let hmac := fun key data : jsstring => key ++ lit ":" ++ data in
  let P := [(lit "b", lit "2"); (lit "signature", lit "k:a=1&b=2"); (lit "a", lit "1")] in
  let Q := [(lit "a", lit "1"); (lit "b", lit "2"); (lit "signature", lit "k:a=1&b=2")] in
  signedRequest Q = signedRequest P /\
  validateSignature hmac (fun _ => Time 0) 5 Q (lit "k") = Normal tt.
Proof.
  split; [|reflexivity].
  apply (@validateSignature_order_independent
           (fun key data : jsstring => key ++ lit ":" ++ data) (fun _ => Time 0) 5
           [(lit "b", lit "2"); (lit "signature", lit "k:a=1&b=2"); (lit "a", lit "1")]
           [(lit "a", lit "1"); (lit "b", lit "2"); (lit "signature", lit "k:a=1&b=2")]
           (lit "k")).
  - repeat constructor; simpl; intuition discriminate.
  - apply Permutation_sym, Permutation_cons_append with (l := [_; _]).
Defined.

(** ** Which error [validateSignature] throws *)

Section VerificationErrors.

Variable hmac_sha256_base64 : jsstring -> jsstring -> jsstring.
Variable Date_parse : jsstring -> timevalue.

(** X6: the signature is checked first.  When the [signature] entry is
    missing or differs from the hash of the canonical string,
    [validateSignature] throws the error "Invalid signature: " followed by
    that string, whatever [issuedAt] holds and whatever the time is. *)
Theorem validateSignature_invalid_signature
    (now : Z) (params : ParameterSet) (appSecret canonical : jsstring) :
  queryString params = Normal canonical ->
  Lodash.get params (lit "signature")
    <> Some (hmac_sha256_base64 appSecret canonical) ->
  validateSignature hmac_sha256_base64 Date_parse now params appSecret
  = Throw (Error (lit "Invalid signature: " ++ canonical)).
Proof.
  intros Hq Hsig. unfold validateSignature. rewrite Hq. simpl.
  destruct (strict_neq _ _) eqn:E; [reflexivity|].
  apply strict_neq_false in E. contradiction.
Qed.

(** X7: with a matching signature and an [issuedAt] that is a valid date,
    the request is accepted up to and including 60000 ms after [issuedAt]
    and rejected with "Expired signature" from the next millisecond on; a
    date in the future is accepted. *)
Theorem validateSignature_window
    (now issuedAt : Z) (params : ParameterSet) (appSecret canonical : jsstring) :
  queryString params = Normal canonical ->
  Lodash.get params (lit "signature")
    = Some (hmac_sha256_base64 appSecret canonical) ->
  getTime Date_parse (Lodash.get params (lit "issuedAt")) = Time issuedAt ->
  ((now <= issuedAt + 60000)%Z ->
   validateSignature hmac_sha256_base64 Date_parse now params appSecret = Normal tt) /\
  ((issuedAt + 60000 < now)%Z ->
   validateSignature hmac_sha256_base64 Date_parse now params appSecret
   = Throw (Error (lit "Expired signature"))).
Proof.
  intros Hq Hsig Ht. unfold validateSignature. rewrite Hq. simpl.
  apply strict_neq_false in Hsig. rewrite Hsig, Ht. simpl.
  unfold SIGNATURE_WINDOW_SIZE.
  destruct (Z.ltb_spec (issuedAt + 60 * 1000) now); split; intros; auto; lia.
Qed.

End VerificationErrors.

Lemma validateSignature_invalid_signature_witness :
  let hmac := fun key data : jsstring => key ++ lit ":" ++ data in
  validateSignature hmac (fun _ => NaN) 0
    [(lit "a", lit "1"); (lit "signature", lit "forged")] (lit "k")
  = Throw (Error (lit "Invalid signature: a=1")).
Proof.
  apply (@validateSignature_invalid_signature
           (fun key data : jsstring => key ++ lit ":" ++ data) (fun _ => NaN) 0
           [(lit "a", lit "1"); (lit "signature", lit "forged")]
           (lit "k") (lit "a=1")).
  - reflexivity.
  - discriminate.
Defined.

Lemma validateSignature_window_witness :
  let hmac := fun key data : jsstring => key ++ lit ":" ++ data in
  let params := [(lit "issuedAt", lit "t"); (lit "signature", lit "k:issuedAt=t")] in
  validateSignature hmac (fun _ => Time 1000) 61000 params (lit "k") = Normal tt.
Proof.
  cbv zeta.
  destruct (@validateSignature_window
              (fun key data : jsstring => key ++ lit ":" ++ data)
              (fun _ => Time 1000) 61000 1000
              [(lit "issuedAt", lit "t"); (lit "signature", lit "k:issuedAt=t")]
              (lit "k") (lit "issuedAt=t") eq_refl eq_refl eq_refl)
    as [Haccept _].
  apply Haccept. lia.
Defined.

(** ** When [percentEncode] escapes every mark *)

Lemma starts_with_unit (c x : N) (s : jsstring) :
  starts_with [c] (x :: s) = N.eqb c x.
Proof. simpl. apply andb_true_r. Qed.

Lemma replace_all_absent (c : N) (rep s : jsstring) :
  occurrences c s = 0%nat -> replace_all c rep s = s.
Proof.
  unfold replace_all. induction s as [|x s IH]; intros H; [reflexivity|].
  rewrite occurrences_cons in H. simpl.
  destruct (N.eqb x c); [discriminate|].
  simpl. f_equal. apply IH. exact H.
Qed.

(** A pattern of one code unit that occurs at most once: replacing its first
    occurrence replaces them all. *)
Lemma replace_once (c : N) (rep s : jsstring) :
  (occurrences c s <= 1)%nat -> replace [c] rep s = replace_all c rep s.
Proof.
  induction s as [|x s IH]; intros H; [reflexivity|].
  rewrite replace_unfold, starts_with_unit.
  rewrite occurrences_cons in H.
  unfold replace_all. simpl. rewrite (N.eqb_sym c x).
  destruct (N.eqb x c).
  - f_equal. symmetry. apply replace_all_absent. lia.
  - simpl. f_equal. apply IH. exact H.
Qed.

Lemma replace_all_occurrences (c d : N) (rep s : jsstring) :
  c <> d -> occurrences d rep = 0%nat ->
  occurrences d (replace_all c rep s) = occurrences d s.
Proof.
  intros Hne Hrep. unfold replace_all.
  induction s as [|x s IH]; [reflexivity|].
  cbn [flat_map]. rewrite occurrences_app, IH, (occurrences_cons d x s).
  destruct (N.eqb_spec x c) as [->|Hx].
  - rewrite Hrep. apply N.eqb_neq in Hne. rewrite Hne. reflexivity.
  - rewrite occurrences_cons. change (occurrences d []) with 0%nat. lia.
Qed.

Lemma mark_unreserved (m : N) : In m marks -> uriUnreserved m = true.
Proof.
  intros H. repeat (destruct H as [<-|H]; [reflexivity|]). destruct H.
Qed.

Lemma hex_digit_not_mark (m n : N) : In m marks -> hex_digit n <> m.
Proof.
  intros H. unfold hex_digit.
  destruct (N.ltb n 10) eqn:E;
    [apply N.ltb_lt in E | apply N.ltb_ge in E];
    repeat (destruct H as [<-|H]; [lia|]); destruct H.
Qed.

Lemma percent_octets_no_mark (m cp : N) :
  In m marks -> occurrences m (percent_octets cp) = 0%nat.
Proof.
  intros Hm. unfold occurrences. apply count_occ_not_In.
  unfold percent_octets. rewrite in_flat_map.
  intros (b & _ & Hin). unfold percent_octet in Hin.
  destruct Hin as [E|[E|[E|[]]]].
  - revert E. repeat (destruct Hm as [<-|Hm]; [discriminate|]). destruct Hm.
  - apply (hex_digit_not_mark _ Hm E).
  - apply (hex_digit_not_mark _ Hm E).
Qed.

(** [encodeURIComponent] copies the marks and adds none. *)
Lemma encodeURIComponent_marks (m : N) (s e : jsstring) :
  In m marks -> encodeURIComponent s = Normal e ->
  occurrences m e = occurrences m s.
Proof.
  intros Hm.
  apply (encodeURIComponent_cases (fun s e => occurrences m e = occurrences m s)).
  - reflexivity.
  - intros c rest r _ _ IH. rewrite !occurrences_cons, IH. reflexivity.
  - intros c d rest r Hc _ Hd _ IH.
    rewrite occurrences_app, percent_octets_no_mark, !occurrences_cons, IH by auto.
    assert (Ec : N.eqb c m = false).
    { apply N.eqb_neq. intros ->. rewrite (mark_unreserved Hm) in Hc. discriminate. }
    assert (Ed : N.eqb d m = false).
    { apply N.eqb_neq. intros ->. revert Hd.
      repeat (destruct Hm as [<-|Hm]; [discriminate|]). destruct Hm. }
    rewrite Ec, Ed. reflexivity.
  - intros c rest r Hc _ IH.
    rewrite occurrences_app, percent_octets_no_mark, occurrences_cons, IH by auto.
    assert (Ec : N.eqb c m = false).
    { apply N.eqb_neq. intros ->. rewrite (mark_unreserved Hm) in Hc. discriminate. }
    rewrite Ec. reflexivity.
Qed.

(** X8: on a string in which each of the marks [! ' ( ) *] occurs at most
    once, [percentEncode] escapes every one of them: it returns what the
    component encoding followed by a replacement of all occurrences
    returns. *)
Theorem percentEncode_escapes_marks_that_occur_once (str : jsstring) :
  (forall m, In m marks -> (occurrences m str <= 1)%nat) ->
  percentEncode str = percentEncode_spec str.
Proof.
  intros Honce. unfold percentEncode, percentEncode_spec.
  destruct (encodeURIComponent str) as [e|] eqn:E; [|reflexivity].
  simpl. f_equal.
  assert (He : forall m, In m marks -> (occurrences m e <= 1)%nat).
  { intros m Hm. rewrite (@encodeURIComponent_marks m str e Hm E). auto. }
  change (lit "!") with [33%N]. change (lit "'") with [39%N].
  change (lit "(") with [40%N]. change (lit ")") with [41%N].
  change (lit "*") with [42%N].
  rewrite (replace_once 33 (lit "%21") e) by (apply He; simpl; auto).
  set (e1 := replace_all 33 (lit "%21") e).
  assert (H1 : forall m, In m marks -> m <> 33%N -> (occurrences m e1 <= 1)%nat).
  { intros m Hm Hne. unfold e1.
    rewrite replace_all_occurrences; auto.
    revert Hne. repeat (destruct Hm as [<-|Hm]; [try congruence; reflexivity|]).
    destruct Hm. }
  rewrite (replace_once 39 (lit "%27") e1) by (apply H1; simpl; auto; discriminate).
  set (e2 := replace_all 39 (lit "%27") e1).
  assert (H2 : forall m, In m [40; 41; 42]%N -> (occurrences m e2 <= 1)%nat).
  { intros m Hm. unfold e2.
    rewrite replace_all_occurrences.
    - apply H1; [simpl in *; tauto|].
      repeat (destruct Hm as [<-|Hm]; [discriminate|]). destruct Hm.
    - repeat (destruct Hm as [<-|Hm]; [discriminate|]). destruct Hm.
    - repeat (destruct Hm as [<-|Hm]; [reflexivity|]). destruct Hm. }
  rewrite (replace_once 40 (lit "%28") e2) by (apply H2; simpl; auto).
  set (e3 := replace_all 40 (lit "%28") e2).
  assert (H3 : forall m, In m [41; 42]%N -> (occurrences m e3 <= 1)%nat).
  { intros m Hm. unfold e3.
    rewrite replace_all_occurrences.
    - apply H2; simpl in *; tauto.
    - repeat (destruct Hm as [<-|Hm]; [discriminate|]). destruct Hm.
    - repeat (destruct Hm as [<-|Hm]; [reflexivity|]). destruct Hm. }
  rewrite (replace_once 41 (lit "%29") e3) by (apply H3; simpl; auto).
  set (e4 := replace_all 41 (lit "%29") e3).
  rewrite (replace_once 42 (lit "%2A") e4); [reflexivity|].
  unfold e4. rewrite replace_all_occurrences;
    [apply H3; simpl; auto | discriminate | reflexivity].
Qed.

Lemma percentEncode_escapes_marks_that_occur_once_witness :
  percentEncode (lit "it's (all) escaped!*")
  = Normal (lit "it%27s%20%28all%29%20escaped%21%2A").
Proof.
  rewrite (@percentEncode_escapes_marks_that_occur_once (lit "it's (all) escaped!*")).
  - reflexivity.
  - intros m Hm. repeat (destruct Hm as [<-|Hm]; [vm_compute; lia|]). destruct Hm.
Defined.

(* ================================================================== *)
(** * Further properties of the API wrapper *)
(* ================================================================== *)

(** ** What [request] leaves behind *)

(** X9: a call of [request] asks the transport for one request, through
    the module of the client, for its host, with the method and path given.
    It throws only what the transport throws, and then leaves the requests
    there were as they are and adds none; otherwise it adds that one request,
    ended, after those there were, which it leaves alone.  When [data] is a
    string that is not empty its UTF-8 bytes are written once and
    [Content-length] is their number; otherwise nothing is written and the
    request has neither [Content-length] nor [Content-type]. *)
Theorem request_creates_one_request (request_throws : transport_check)
    (this : Client) (method path : jsstring)
    (data : option jsstring) (options callback : arg) (w : World) :
  exists r,
    request request_throws this method path data options callback w
      = sending request_throws r w /\
    req_module r = scheme this /\ req_hostname r = hostname this /\
    req_method r = method /\ req_path r = path /\ req_ended r = true /\
    match data with
    | Some (c :: body) =>
        req_written r = [Buffer_from (c :: body)] /\
        Lodash.get (req_headers r) (lit "Content-length")
          = Some (Int (Z.of_nat (List.length (Buffer_from (c :: body)))))
    | _ =>
        req_written r = [] /\
        Lodash.get (req_headers r) (lit "Content-length") = None /\
        Lodash.get (req_headers r) (lit "Content-type") = None
    end.
Proof.
  exists (sent_request this method path data options callback).
  split; [apply request_sending|].
  destruct (sent_request_fields this method path data options callback)
    as (H1 & H2 & H3 & H4).
  destruct (sent_request_callback this method path data options callback)
    as (_ & _ & H5).
  repeat (split; [assumption|]).
  rewrite sent_request_written, sent_request_headers,
    header_Content_length, header_Content_type.
  destruct data as [[|c body]|]; repeat split.
Qed.

(** ** Options that are not an object: what becomes of the callback *)

Lemma normalize_replaced (options callback : arg) :
  isObject options = false \/ isFunction options = true ->
  normalize options callback = ([], options).
Proof.
  unfold normalize. intros [-> | ->]; simpl; auto.
  rewrite orb_true_r; reflexivity.
Qed.

(** X10: when [options] is not an object, [request] does not look at its
    [callback] argument: a callback passed after a [null] or [undefined]
    options is dropped, whatever the transport makes of the request.  The
    value passed for options is the callback of the request that the
    transport is asked for; when it is falsy neither handler calls anything,
    and when it is truthy without being a function both handlers throw a
    [TypeError]. *)
Theorem options_not_an_object_drop_the_callback (request_throws : transport_check)
    (this : Client)
    (method path : jsstring) (data : option jsstring)
    (options callback callback' : arg) (w : World) :
  isObject options = false \/ isFunction options = true ->
  request request_throws this method path data options callback w
    = request request_throws this method path data options callback' w /\
  exists r,
    request request_throws this method path data options callback w
      = sending request_throws r w /\
    req_method r = method /\ req_path r = path /\
    req_response_callback r = options /\ req_error_callback r = Some options /\
    (arg_truthy options = false ->
     forall statusCode chunks error,
       response_end options statusCode chunks = NoCall /\
       request_error options error = NoCall) /\
    (arg_truthy options = true -> isFunction options = false ->
     forall statusCode chunks error,
       response_end options statusCode chunks = HandlerThrows callback_not_a_function /\
       request_error options error = HandlerThrows callback_not_a_function).
Proof.
  intros Hrep.
  pose proof (normalize_replaced options callback Hrep) as Hn.
  pose proof (normalize_replaced options callback' Hrep) as Hn'.
  split; [unfold request; rewrite Hn, Hn'; reflexivity|].
  exists (sent_request this method path data options callback).
  split; [apply request_sending|].
  destruct (sent_request_fields this method path data options callback)
    as (_ & _ & Hm & Hp).
  split; [exact Hm|]. split; [exact Hp|].
  destruct (sent_request_callback this method path data options callback)
    as (Hc1 & Hc2 & _).
  rewrite Hn in Hc1, Hc2. simpl in Hc1, Hc2.
  split; [exact Hc1|]. split; [exact Hc2|]. split.
  - intros Hf statusCode chunks error.
    rewrite response_end_classify. unfold request_error, invoke_callback.
    rewrite Hf. split; reflexivity.
  - intros Ht Hnf statusCode chunks error.
    rewrite response_end_classify. unfold request_error, invoke_callback.
    rewrite Ht. destruct options; try discriminate; split; reflexivity.
Qed.

Lemma options_not_an_object_drop_the_callback_witness :
  let this :=
    {| scheme := https; hostname := Some (lit "api.speakap.io");
       appId := Some (lit "id"); appSecret := Some (lit "secret");
       apiVersion := lit "1.1"; accessToken := Some (lit "id_secret") |} in
  request unescaped_path this (lit "GET") (lit "/") None ArgNull (ArgFunction 1) []
  = request unescaped_path this (lit "GET") (lit "/") None ArgNull ArgUndefined [].
Proof.
  cbv zeta.
  apply (@options_not_an_object_drop_the_callback unescaped_path
           {| scheme := https; hostname := Some (lit "api.speakap.io");
              appId := Some (lit "id"); appSecret := Some (lit "secret");
              apiVersion := lit "1.1"; accessToken := Some (lit "id_secret") |}
           (lit "GET") (lit "/") None ArgNull (ArgFunction 1) ArgUndefined []).
  left; reflexivity.
Defined.

(** ** The body of a response *)

(** X11: the response handler depends on the body only, not on how the
    transport cut it into chunks: any chunks with the same concatenation give
    the same call. *)
Theorem response_end_chunks (callback : arg) (statusCode : Z)
    (chunks chunks' : list jsstring) :
  List.concat chunks = List.concat chunks' ->
  response_end callback statusCode chunks = response_end callback statusCode chunks'.
Proof.
  intros H. rewrite !response_end_classify, H. reflexivity.
Qed.

Lemma response_end_chunks_witness :
  response_end (ArgFunction 0) 200 [litq "{'a'"; litq ":"; litq "[1]}"]
  = response_end (ArgFunction 0) 200 [litq "{'a':[1]}"].
Proof.
  apply (@response_end_chunks (ArgFunction 0) 200
           [litq "{'a'"; litq ":"; litq "[1]}"] [litq "{'a':[1]}"]).
  reflexivity.
Defined.

(** ** [get], [delete] and [post] *)

Section Verbs.

Variable request_throws : transport_check.
Variable JSON_stringify : jsval -> completion (option jsstring).

(** X12: [get] and [delete] ask the transport for one request each, with the
    method ["GET"] or ["DELETE"] and the path given, and without a body:
    nothing is written and no [Content-length] or [Content-type] header is
    set.  They throw what the transport throws, adding no request, and
    otherwise leave that request behind, ended.  Each is the call of
    [request] with that method and [null] for data. *)
Theorem get_and_delete_send_no_body (d : nat) (this : Client) (path : jsstring)
    (options callback : arg) (w : World) :
  let this_call := invoke request_throws JSON_stringify (S d) this in
  (get this_call path options callback w
     = request request_throws this (lit "GET") path None options callback w /\
   exists r,
     get this_call path options callback w = sending request_throws r w /\
     req_method r = lit "GET" /\ req_path r = path /\ req_ended r = true /\
     req_written r = [] /\
     Lodash.get (req_headers r) (lit "Content-length") = None /\
     Lodash.get (req_headers r) (lit "Content-type") = None) /\
  (delete this_call path options callback w
     = request request_throws this (lit "DELETE") path None options callback w /\
   exists r,
     delete this_call path options callback w = sending request_throws r w /\
     req_method r = lit "DELETE" /\ req_path r = path /\ req_ended r = true /\
     req_written r = [] /\
     Lodash.get (req_headers r) (lit "Content-length") = None /\
     Lodash.get (req_headers r) (lit "Content-type") = None).
Proof.
  cbv zeta. split; (split; [reflexivity|]).
  - change (get (invoke request_throws JSON_stringify (S d) this) path options callback w)
      with (request request_throws this (lit "GET") path None options callback w).
    exists (sent_request this (lit "GET") path None options callback).
    split; [apply request_sending|].
    destruct (sent_request_fields this (lit "GET") path None options callback)
      as (_ & _ & Hm & Hp).
    destruct (sent_request_callback this (lit "GET") path None options callback)
      as (_ & _ & He).
    rewrite sent_request_written, sent_request_headers,
      header_Content_length, header_Content_type.
    auto 10.
  - change (delete (invoke request_throws JSON_stringify (S d) this) path options callback w)
      with (request request_throws this (lit "DELETE") path None options callback w).
    exists (sent_request this (lit "DELETE") path None options callback).
    split; [apply request_sending|].
    destruct (sent_request_fields this (lit "DELETE") path None options callback)
      as (_ & _ & Hm & Hp).
    destruct (sent_request_callback this (lit "DELETE") path None options callback)
      as (_ & _ & He).
    rewrite sent_request_written, sent_request_headers,
      header_Content_length, header_Content_type.
    auto 10.
Qed.

(** X13: [post] sends what [JSON.stringify] makes of [data].  When
    [JSON.stringify] throws, [post] throws the same and the transport is not
    asked for anything.  When it returns, the transport is asked for one
    ["POST"] request with the path given; [post] throws what the transport
    throws, adding no request, and otherwise leaves that request behind,
    ended.  For a string that is not empty the body of the request is the
    UTF-8 bytes of that string and its [Content-type] is
    [options.contentType], or ["application/json"] without one, followed by
    ["; charset=utf-8"].  For [undefined] the request has no body. *)
Theorem post_sends_the_JSON_text (d : nat) (this : Client) (path : jsstring)
    (data : jsval) (options callback : arg) (w : World) :
  let this_call := invoke request_throws JSON_stringify (S d) this in
  match JSON_stringify data with
  | Throw e => post JSON_stringify this_call path data options callback w = (Throw e, w)
  | Normal body =>
      exists r,
        post JSON_stringify this_call path data options callback w
          = sending request_throws r w /\
        req_method r = lit "POST" /\ req_path r = path /\ req_ended r = true /\
        match body with
        | Some (c :: text) =>
            req_written r = [Buffer_from (c :: text)] /\
            Lodash.get (req_headers r) (lit "Content-type")
              = Some (Str (or_default
                             (Lodash.get (fst (normalize options callback))
                                         (lit "contentType"))
                             (lit "application/json")
                           ++ lit "; charset=utf-8"))
        | _ => req_written r = []
        end
  end.
Proof.
  cbv zeta. unfold post, mbind, lift.
  destruct (JSON_stringify data) as [body|e]; [|reflexivity].
  change (invoke request_throws JSON_stringify (S d) this (lit "request") (lit "POST") path body
            options callback w)
    with (request request_throws this (lit "POST") path body options callback w).
  exists (sent_request this (lit "POST") path body options callback).
  split; [apply request_sending|].
  destruct (sent_request_fields this (lit "POST") path body options callback)
    as (_ & _ & H3 & H4).
  destruct (sent_request_callback this (lit "POST") path body options callback)
    as (_ & _ & H5).
  repeat (split; [assumption|]).
  rewrite sent_request_written, sent_request_headers, header_Content_type.
  destruct body as [[|c text]|]; repeat split.
Qed.

End Verbs.

(** ** The configuration of the client in its requests *)

Lemma API_fields (config : Config) (w w' : World) (this : Client) :
  API config w = (Normal this, w') ->
  ((Lodash.get config (lit "scheme") = Some (lit "http") /\ scheme this = http) \/
   (Lodash.get config (lit "scheme") = Some (lit "https") /\ scheme this = https)) /\
  hostname this = Lodash.get config (lit "hostname") /\
  apiVersion this = or_default (Lodash.get config (lit "apiVersion")) (lit "1.1").
Proof.
  unfold API.
  destruct (Lodash.get config (lit "scheme")) as [s|]; [|discriminate].
  unfold strict_neq.
  destruct (jsstring_eqb (lit "http") s) eqn:E1.
  { apply jsstring_eqb_eq in E1; subst s. intros [= <- _]. simpl. auto. }
  destruct (jsstring_eqb (lit "https") s) eqn:E2.
  { apply jsstring_eqb_eq in E2; subst s. intros [= <- _]. simpl. auto. }
  discriminate.
Qed.

(** X14: the requests that a constructed client asks the transport for,
    and leaves behind unless the transport throws, are for [config.hostname]
    and go through the module that [config.scheme] names.  Their [Accept]
    header is the per-call [options.accept] when it is not empty; otherwise
    it is ["application/vnd.speakap.api-v" + version + "+json"], the version
    being [config.apiVersion], or ["1.1"] when that is missing or empty. *)
Theorem request_uses_client_configuration (request_throws : transport_check)
    (config : Config) (w0 : World)
    (this : Client) (method path : jsstring) (data : option jsstring)
    (options callback : arg) (w : World) :
  API config w0 = (Normal this, w0) ->
  exists r,
    request request_throws this method path data options callback w
      = sending request_throws r w /\
    req_method r = method /\ req_path r = path /\
    req_hostname r = Lodash.get config (lit "hostname") /\
    (Lodash.get config (lit "scheme") = Some (lit "http") -> req_module r = http) /\
    (Lodash.get config (lit "scheme") = Some (lit "https") -> req_module r = https) /\
    let accept := Lodash.get (fst (normalize options callback)) (lit "accept") in
    let version := Lodash.get config (lit "apiVersion") in
    Lodash.get (req_headers r) (lit "Accept") =
    Some (Str (if truthy accept then ToString accept
               else lit "application/vnd.speakap.api-v"
                    ++ (if truthy version then ToString version else lit "1.1")
                    ++ lit "+json")).
Proof.
  intros Hthis.
  destruct (API_fields _ _ Hthis) as (Hscheme & Hhost & Hversion).
  exists (sent_request this method path data options callback).
  split; [apply request_sending|].
  destruct (sent_request_fields this method path data options callback)
    as (Hm & Hh & Hmeth & Hpath).
  split; [exact Hmeth|]. split; [exact Hpath|].
  rewrite Hm, Hh, Hhost. split; [reflexivity|].
  split; [|split].
  - intros E. destruct Hscheme as [[_ ->]|[E' _]]; [reflexivity|].
    rewrite E in E'. vm_compute in E'. discriminate E'.
  - intros E. destruct Hscheme as [[E' _]|[_ ->]]; [|reflexivity].
    rewrite E in E'. vm_compute in E'. discriminate E'.
  - cbv zeta. rewrite sent_request_headers, header_Accept, Hversion. reflexivity.
Qed.

Lemma request_uses_client_configuration_witness :
  let config := [(lit "scheme", lit "http"); (lit "hostname", lit "localhost")] in
  let this :=
    {| scheme := http; hostname := Some (lit "localhost");
       appId := None; appSecret := None;
       apiVersion := lit "1.1"; accessToken := None |} in
  exists r,
    request unescaped_path this (lit "GET") (lit "/") None ArgUndefined ArgUndefined []
      = (Normal tt, [r]) /\
    req_module r = http /\
    Lodash.get (req_headers r) (lit "Accept")
      = Some (Str (lit "application/vnd.speakap.api-v1.1+json")).
Proof.
  cbv zeta.
  destruct (@request_uses_client_configuration unescaped_path
              [(lit "scheme", lit "http"); (lit "hostname", lit "localhost")] []
              {| scheme := http; hostname := Some (lit "localhost");
                 appId := None; appSecret := None;
                 apiVersion := lit "1.1"; accessToken := None |}
              (lit "GET") (lit "/") None ArgUndefined ArgUndefined [] eq_refl)
    as (r & Hr & _ & Hpath & _ & Hhttp & _ & Haccept).
  exists r. split; [|split; [apply Hhttp; reflexivity | exact Haccept]].
  rewrite Hr. unfold sending, unescaped_path. rewrite Hpath. reflexivity.
Defined.

(** ** What [postAction] prepares *)

Lemma extend_get {V} (src dst : Lodash.object V) (k : jsstring) :
  Lodash.well_formed src ->
  Lodash.get (Lodash.extend dst src) k =
  match Lodash.get src k with
  | Some v => Some v
  | None => Lodash.get dst k
  end.
Proof.
  unfold Lodash.extend, Lodash.well_formed.
  revert dst; induction src as [|[k0 v0] src IH]; intros dst Hwf; [reflexivity|].
  inversion Hwf as [|? ? Hnin Hnd]; subst.
  cbn [fold_left fst snd Lodash.get]. rewrite (IH _ Hnd).
  destruct (jsstring_eqb k0 k) eqn:E.
  - apply jsstring_eqb_eq in E; subst k0.
    rewrite (proj2 (get_None src k) Hnin). apply get_set_same.
  - rewrite get_set_other by exact E. reflexivity.
Qed.

(** X15: what [postAction] hands to [this._request], whatever that member
    is.  The form fields are encoded with [encodeURIComponent], joined by
    ampersands in the order of the object; when a key or a value cannot be
    encoded the [URIError] is thrown before anything is called.  The options
    passed on are those of the call, with [contentType] set to
    ["application/x-www-form-urlencoded"] unless the call names one. *)
Theorem postAction_hands_over_the_form
    (this_call : jsstring -> member) (path : jsstring)
    (fields options : Lodash.object jsstring) (callback : arg) (w : World) :
  Lodash.well_formed options ->
  exists options',
    postAction this_call path (Some fields) (ArgObject options) callback w =
    match mapM formPair fields with
    | Throw e => (Throw e, w)
    | Normal parts =>
        this_call (lit "_request") (lit "POST") path
          (Some (join (lit "&") parts)) (ArgObject options') callback w
    end /\
    (forall k v, Lodash.get options k = Some v -> Lodash.get options' k = Some v) /\
    (forall k, Lodash.get options k = None -> k <> lit "contentType" ->
               Lodash.get options' k = None) /\
    (Lodash.get options (lit "contentType") = None ->
     Lodash.get options' (lit "contentType") = Some form_urlencoded).
Proof.
  intros Hwf.
  exists (Lodash.extend [(lit "contentType", form_urlencoded)] options).
  split; [|split; [|split]].
  - unfold postAction, mbind, lift.
    destruct (mapM formPair fields); reflexivity.
  - intros k v H. rewrite extend_get, H by exact Hwf. reflexivity.
  - intros k H Hne. rewrite extend_get, H by exact Hwf.
    cbn [Lodash.get]. apply jsstring_eqb_neq in Hne.
    rewrite jsstring_eqb_sym, Hne. reflexivity.
  - intros H. rewrite extend_get, H by exact Hwf. reflexivity.
Qed.

Lemma postAction_hands_over_the_form_witness :
  postAction (fun _ _ _ data options _ w =>
                (Normal tt, w)) (lit "/x") (Some [(lit "a b", lit "!")])
             (ArgObject [(lit "accept", lit "text/plain")]) ArgUndefined []
  = (Normal tt, []).
Proof.
  destruct (@postAction_hands_over_the_form
              (fun _ _ _ data options _ w => (Normal tt, w)) (lit "/x")
              [(lit "a b", lit "!")] [(lit "accept", lit "text/plain")]
              ArgUndefined [])
    as (o & Ho & _).
  - repeat constructor; simpl; intuition.
  - etransitivity; [exact Ho | reflexivity].
Defined.

(** ** The notifier *)

Section NotifierFacts.

Variable request_throws : transport_check.
Variable JSON_stringify : jsval -> completion (option jsstring).

Lemma post_with_callback_as_options (d : nat) (this : Client) (path : jsstring)
    (data : jsval) (callback : arg) (w : World) :
  isObject callback = false \/ isFunction callback = true ->
  match JSON_stringify data with
  | Throw e =>
      post JSON_stringify (invoke request_throws JSON_stringify (S d) this) path data
           callback ArgUndefined w = (Throw e, w)
  | Normal body =>
      exists r,
        post JSON_stringify (invoke request_throws JSON_stringify (S d) this) path data
             callback ArgUndefined w = sending request_throws r w /\
        req_method r = lit "POST" /\ req_path r = path /\ req_ended r = true /\
        req_response_callback r = callback /\
        req_error_callback r = Some callback
  end.
Proof.
  intros Hcb. unfold post, mbind, lift.
  destruct (JSON_stringify data) as [body|e]; [|reflexivity].
  change (invoke request_throws JSON_stringify (S d) this (lit "request") (lit "POST") path body
            callback ArgUndefined w)
    with (request request_throws this (lit "POST") path body callback ArgUndefined w).
  exists (sent_request this (lit "POST") path body callback ArgUndefined).
  split; [apply request_sending|].
  destruct (sent_request_fields this (lit "POST") path body callback ArgUndefined)
    as (_ & _ & H3 & H4).
  destruct (sent_request_callback this (lit "POST") path body callback ArgUndefined)
    as (H5 & H6 & H7).
  rewrite (normalize_replaced callback ArgUndefined Hcb) in H5, H6.
  auto 10.
Qed.

(** X16: a notification asks the transport for one ["POST"] of the client
    of the notifier: to the alerts of the network for a deleted schedule, to
    its messages for a new one, the identifier of the network going into the
    path as it is.  The notifier throws what the transport throws, and then
    nothing is sent; otherwise that request is left behind, ended.  The
    callback of the notifier, which [post] receives in the place of the
    options, is the callback of the request as long as it is not a plain
    object.  When [JSON.stringify] throws, the notifier throws the same and
    the transport is not asked for anything. *)
Theorem notifier_posts_once (d : nat) (this : Client)
    (networkEid userEid week : jsstring) (appData : jsval)
    (callback : arg) (w : World) :
  isObject callback = false \/ isFunction callback = true ->
  let speakapApi_post := post JSON_stringify (invoke request_throws JSON_stringify (S d) this) in
  match JSON_stringify (deletedScheduleAlert userEid week appData) with
  | Throw e =>
      sendDeletedScheduleNotification speakapApi_post
        networkEid userEid week appData callback w = (Throw e, w)
  | Normal _ =>
      exists r,
        sendDeletedScheduleNotification speakapApi_post
          networkEid userEid week appData callback w = sending request_throws r w /\
        req_method r = lit "POST" /\
        req_path r = lit "/networks/" ++ networkEid ++ lit "/alerts/" /\
        req_ended r = true /\
        req_response_callback r = callback /\
        req_error_callback r = Some callback
  end /\
  match JSON_stringify (newScheduleMessage userEid week appData) with
  | Throw e =>
      sendNewScheduleNotification speakapApi_post
        networkEid userEid week appData callback w = (Throw e, w)
  | Normal _ =>
      exists r,
        sendNewScheduleNotification speakapApi_post
          networkEid userEid week appData callback w = sending request_throws r w /\
        req_method r = lit "POST" /\
        req_path r = lit "/networks/" ++ networkEid ++ lit "/messages/" /\
        req_ended r = true /\
        req_response_callback r = callback /\
        req_error_callback r = Some callback
  end.
Proof.
  intros Hcb. cbv zeta.
  unfold sendDeletedScheduleNotification, sendNewScheduleNotification.
  split; apply post_with_callback_as_options; exact Hcb.
Qed.

End NotifierFacts.

Lemma notifier_posts_once_witness :
  let this :=
    {| scheme := https; hostname := Some (lit "api.speakap.io");
       appId := Some (lit "id"); appSecret := Some (lit "secret");
       apiVersion := lit "1.1"; accessToken := Some (lit "id_secret") |} in
  let stringify := fun _ : jsval => Normal (Some (lit "{}")) in
  exists r,
    sendNewScheduleNotification (post stringify (invoke unescaped_path stringify 1 this))
      (lit "n1") (lit "u1") (lit "42") Null (ArgFunction 0) []
    = (Normal tt, [r]) /\
    req_path r = lit "/networks/n1/messages/" /\
    req_response_callback r = ArgFunction 0.
Proof.
  cbv zeta.
  destruct (@notifier_posts_once unescaped_path
              (fun _ : jsval => Normal (Some (lit "{}"))) 0
              {| scheme := https; hostname := Some (lit "api.speakap.io");
                 appId := Some (lit "id"); appSecret := Some (lit "secret");
                 apiVersion := lit "1.1"; accessToken := Some (lit "id_secret") |}
              (lit "n1") (lit "u1") (lit "42") Null (ArgFunction 0) []
              (or_intror eq_refl))
    as (_ & r & Hr & _ & Hp & _ & Hc & _).
  exists r. split; [|split; [exact Hp | exact Hc]].
  etransitivity; [exact Hr|].
  unfold sending, unescaped_path. rewrite Hp. reflexivity.
Defined.
